(** * realtime-canvas: the stroke protocol of [server.ts] and the replica of [main.ts]

    The development embeds the message handler of the WebSocket authority
    ([src/server/src/server.ts]) and the message handler of the browser
    replica ([src/client/src/main.ts]) as pure state-passing functions, and
    proves the properties of the stroke life cycle (begin / add points / end),
    of per-user undo and redo, of clear and of the fan-out.

    Conventions of the embedding.
    - A JS array is a list in array order: [push] appends at the end and
      [find]/[findIndex] scan from the front.  The one exception is an undo
      stack, which the source only ever touches through [push] and [pop]: it is
      a list whose head is the top of the stack (the last array element).
    - A JS object used as a dictionary ([rooms], [userStacks]) is a [gmap]
      with string keys, which holds the object's own properties.  A lookup
      under a name the object does not own goes on to [Object.prototype]:
      [on_message] is the handler for names that are not inherited from
      there, and [listener] is the handler for every name, with the
      [TypeError]s the inherited names end in.
    - [removed?: boolean] is an [option bool]; [None] is the absent property.
      The source only ever tests it for truthiness.
    - Coordinates, timestamps and sizes are JS numbers the protocol never
      computes with; their type is a parameter, [number].
    - Socket objects live in a heap indexed by a connection number;
      [wss.clients] is the list of connection numbers in insertion order.
    - [crypto.randomUUID()] is an input of the handler: the identifier the
      call returns in this turn.
    - Every inbound message has the shape its TypeScript type [Msg] says.
      Canvas and DOM calls of the replica are outside the model, except
      that a listener which throws while drawing stops there. *)

From stdpp Require Import strings functions gmap fin_maps list.

(** What the undo stacks need to know of a stroke: its id, its author and
    whether it is tombstoned. *)
Abbreviation Key := (string * string * bool)%type.

Section Model.

Context {number : Type}.

(** ** Data model (server.ts, lines 5-30) *)

Record Point := mkPoint { point_x : number; point_y : number; point_t : number }.

Inductive Tool := pen | eraser.

Record Stroke := mkStroke {
  stroke_id : string;
  stroke_userId : string;
  stroke_color : string;
  stroke_size : number;
  stroke_tool : Tool;
  stroke_points : list Point;
  stroke_removed : option bool
}.

Inductive Msg :=
| msg_join_room (room userId : string)
| msg_begin_stroke (room color : string) (size : number) (tool : Tool)
| msg_add_points (room strokeId : string) (points : list Point)
| msg_end_stroke (room strokeId : string)
| msg_undo (room userId : string)
| msg_redo (room userId : string)
| msg_clear (room : string)
| msg_cursor (room userId : string) (x y : number).

Record RoomState := mkRoomState {
  strokes : list Stroke;
  userStacks : gmap string (list string)
}.

(** Outbound events, the objects handed to [JSON.stringify]. *)
Inductive Event :=
| ev_room_state (state : RoomState)
| ev_begin_stroke (stroke : Stroke)
| ev_add_points (strokeId : string) (points : list Point)
| ev_end_stroke (strokeId : string)
| ev_remove_stroke (strokeId : string)
| ev_restore_stroke (stroke : Stroke)
| ev_clear
| ev_cursor (userId : string) (x y : number).

(** ** Connections *)

Inductive ReadyState := CONNECTING | OPEN | CLOSING | CLOSED.

#[export] Instance ReadyState_eq_dec : EqDecision ReadyState.
Proof. solve_decision. Defined.

(** The fields the handler attaches to a socket object, and its state. *)
Record Socket := mkSocket {
  ws_room : string;
  ws_userId : string;
  ws_readyState : ReadyState
}.

Record Server := mkServer {
  rooms : gmap string RoomState;
  sockets : nat → Socket;
  clients : list nat
}.

(** One delivered frame: the receiving connection and the event. *)
Definition Frame : Type := nat * Event.

(** JS truthiness of the optional [removed] flag. *)
Definition truthy (r : option bool) : bool :=
  match r with Some true => true | _ => false end.

Definition set_removed (r : option bool) (s : Stroke) : Stroke :=
  mkStroke (stroke_id s) (stroke_userId s) (stroke_color s) (stroke_size s)
           (stroke_tool s) (stroke_points s) r.

(** [s.points.push(...pts)] *)
Definition push_points (pts : list Point) (s : Stroke) : Stroke :=
  mkStroke (stroke_id s) (stroke_userId s) (stroke_color s) (stroke_size s)
           (stroke_tool s) (stroke_points s ++ pts) (stroke_removed s).

(** The predicate of [strokes.find((st) => st.id === id && !st.removed)]. *)
Definition live_with_id (id : string) (st : Stroke) : Prop :=
  stroke_id st = id ∧ truthy (stroke_removed st) = false.

(** The predicate of [findIndex((st) => st.userId === userId && st.removed)]. *)
Definition removed_by (userId : string) (st : Stroke) : Prop :=
  stroke_userId st = userId ∧ truthy (stroke_removed st) = true.

#[export] Instance live_with_id_dec id st : Decision (live_with_id id st).
Proof. unfold live_with_id. apply _. Defined.

#[export] Instance removed_by_dec userId st : Decision (removed_by userId st).
Proof. unfold removed_by. apply _. Defined.

(** ** Room registry (server.ts, lines 32-37) *)

Definition empty_room : RoomState := mkRoomState [] ∅.

(** [getRoom] returns the room object and the registry, in which the room
    has been created when it was absent.  This is the function for a name
    [rooms] does not inherit; for an inherited name see [listener]. *)
Definition getRoom (room : string) (rs : gmap string RoomState)
  : RoomState * gmap string RoomState :=
  match rs !! room with
  | Some state => (state, rs)
  | None => (empty_room, <[room := empty_room]> rs)
  end.

(** ** Fan-out (server.ts, lines 42-48) *)

Definition is_recipient (sv : Server) (room : string) (except : option nat)
    (client : nat) : Prop :=
  ws_readyState (sockets sv client) = OPEN
  ∧ ws_room (sockets sv client) = room
  ∧ Some client ≠ except.

#[export] Instance is_recipient_dec sv room except client :
  Decision (is_recipient sv room except client).
Proof. unfold is_recipient. apply _. Defined.

Definition broadcast (sv : Server) (room : string) (data : Event)
    (except : option nat) : list Frame :=
  (λ client, (client, data)) <$> filter (is_recipient sv room except) (clients sv).

(** [ws.send(data)]: the [ws] library delivers a frame on an open socket and
    discards it on a closing or closed one. *)
Definition send (sv : Server) (ws : nat) (data : Event) : list Frame :=
  if decide (ws_readyState (sockets sv ws) = OPEN) then [(ws, data)] else [].

(** ** The cases of the handler's [switch] (server.ts, lines 74-140) *)

(** [(state.userStacks[userId] ||= []).push(id)], for a [userId] that is an
    own key of [userStacks] or is not inherited; see [listener] for the
    others. *)
Definition push_id (userId id : string) (stacks : gmap string (list string))
  : gmap string (list string) :=
  <[userId := id :: default [] (stacks !! userId)]> stacks.

(** case "begin_stroke", lines 76-88: the new room state and the stroke of
    the payload, [{ ...s, points: [] }], which is [s] itself. *)
Definition case_begin_stroke (id userId color : string) (size : number)
    (tool : Tool) (state : RoomState) : RoomState * Stroke :=
  let s := mkStroke id userId color size tool [] None in
  (mkRoomState (strokes state ++ [s]) (push_id userId id (userStacks state)), s).

(** case "add_points", lines 94-97: [None] is the early [return]; otherwise
    the new room state, [s.id] and the truncated batch [pts]. *)
Definition case_add_points (strokeId : string) (points : list Point)
    (state : RoomState) : option (RoomState * string * list Point) :=
  match list_find (live_with_id strokeId) (strokes state) with
  | None => None
  | Some (i, s) =>
      let pts := take 200 points in
      Some (mkRoomState (<[i := push_points pts s]> (strokes state))
                        (userStacks state),
            stroke_id s, pts)
  end.

(** The [while (stack.length)] loop of case "undo", lines 107-115: the stack
    that is left, and the position and value of the stroke found, if any. *)
Fixpoint undo_loop (sts : list Stroke) (stack : list string)
  : list string * option (nat * Stroke * string) :=
  match stack with
  | [] => ([], None)
  | id :: stack' =>
      match list_find (live_with_id id) sts with
      | Some (i, s) => (stack', Some (i, s, id))
      | None => undo_loop sts stack'
      end
  end.

(** case "undo", lines 106-115: the new room state and the id broadcast in
    [remove_stroke], if a stroke was removed.  With no stack for [userId],
    and [userId] not an inherited name, the loop runs on a fresh empty array
    and nothing is stored; see [listener] for the inherited names. *)
Definition case_undo (userId : string) (state : RoomState)
  : RoomState * option string :=
  match userStacks state !! userId with
  | None => (state, None)
  | Some stack =>
      match undo_loop (strokes state) stack with
      | (stack', Some (i, s, id)) =>
          (mkRoomState (<[i := set_removed (Some true) s]> (strokes state))
                       (<[userId := stack']> (userStacks state)),
           Some id)
      | (stack', None) =>
          (mkRoomState (strokes state) (<[userId := stack']> (userStacks state)),
           None)
      end
  end.

(** case "redo", lines 119-126: the new room state and the restored stroke.
    The stroke object found in the reversed copy is the one stored in
    [state.strokes], so the assignment to [s.removed] updates it in place. *)
Definition case_redo (userId : string) (state : RoomState)
  : RoomState * option Stroke :=
  let reversed := reverse (strokes state) in
  match list_find (removed_by userId) reversed with
  | Some (idx, s) =>
      let s' := set_removed (Some false) s in
      (mkRoomState (reverse (<[idx := s']> reversed))
                   (push_id userId (stroke_id s') (userStacks state)),
       Some s')
  | None => (state, None)
  end.

(** case "clear", lines 131-132. *)
Definition case_clear (state : RoomState) : RoomState := mkRoomState [] ∅.

(** ** The message handler (server.ts, lines 54-141) *)

(** The cases mutate the room object [getRoom] returned, which is the one
    the registry holds: the registry then maps [room] to the new state. *)
Definition with_room (sv : Server) (room : string) (state : RoomState)
    (rs : gmap string RoomState) : Server :=
  mkServer (<[room := state]> rs) (sockets sv) (clients sv).

(** One turn of the "message" listener of connection [ws], for a message that
    parsed.  A [join_room] is handled first and returns.  Every other message
    is applied to the room the socket is in, [ws.room]; the [room] field of
    the message itself is not read.  [getRoom] runs before the [switch], so a
    turn creates the socket's room when the registry does not have it. *)
Definition on_message (ws : nat) (msg : Msg) (uuid : string) (sv : Server)
  : Server * list Frame :=
  match msg with
  | msg_join_room room userId =>
      let sock := sockets sv ws in
      let sock' := mkSocket room
                     (if decide (userId = EmptyString) then ws_userId sock else userId)
                     (ws_readyState sock) in
      let '(state, rs) := getRoom room (rooms sv) in
      let sv' := mkServer rs (<[ws := sock']> (sockets sv)) (clients sv) in
      (sv', send sv' ws (ev_room_state state))
  | _ =>
      let room := ws_room (sockets sv ws) in
      let '(state, rs) := getRoom room (rooms sv) in
      let sv0 := mkServer rs (sockets sv) (clients sv) in
      match msg with
      | msg_join_room _ _ => (sv0, []) (* returned above *)
      | msg_begin_stroke _ color size tool =>
          let '(state', s) :=
            case_begin_stroke uuid (ws_userId (sockets sv ws)) color size tool state in
          let payload := ev_begin_stroke s in
          let sv' := with_room sv room state' rs in
          (sv', broadcast sv' room payload None ++ send sv' ws payload)
      | msg_add_points _ strokeId points =>
          match case_add_points strokeId points state with
          | None => (sv0, [])
          | Some (state', id, pts) =>
              let sv' := with_room sv room state' rs in
              (sv', broadcast sv' room (ev_add_points id pts) (Some ws))
          end
      | msg_end_stroke _ strokeId =>
          (sv0, broadcast sv0 room (ev_end_stroke strokeId) (Some ws))
      | msg_undo _ userId =>
          let '(state', removed) := case_undo userId state in
          let sv' := with_room sv room state' rs in
          (sv', match removed with
                | Some id => broadcast sv' room (ev_remove_stroke id) None
                | None => []
                end)
      | msg_redo _ userId =>
          let '(state', restored) := case_redo userId state in
          let sv' := with_room sv room state' rs in
          (sv', match restored with
                | Some s => broadcast sv' room (ev_restore_stroke s) None
                | None => []
                end)
      | msg_clear _ =>
          let sv' := with_room sv room (case_clear state) rs in
          (sv', broadcast sv' room ev_clear None)
      | msg_cursor _ userId x y =>
          (sv0, broadcast sv0 room (ev_cursor userId x y) (Some ws))
      end
  end.

(** The room state the handler works on: what [getRoom] returns. *)
Definition room_of (sv : Server) (room : string) : RoomState :=
  (getRoom room (rooms sv)).1.

(** A run of the authority: one handling turn per inbound message, in the
    order received; the frames of all turns in the order sent. *)
Fixpoint run (inputs : list (nat * Msg * string)) (sv : Server)
  : Server * list Frame :=
  match inputs with
  | [] => (sv, [])
  | (ws, msg, uuid) :: rest =>
      let '(sv1, out1) := on_message ws msg uuid sv in
      let '(sv2, out2) := run rest sv1 in
      (sv2, out1 ++ out2)
  end.

(** ** The replica (main.ts, lines 22-29 and 50-126) *)

Record Client := mkClient {
  client_userId : string;
  client_room : string;
  client_strokes : list Stroke;
  drawing : bool;
  currentId : option string;
  pendingPoints : list Point;
  localTempStroke : option Stroke
}.

Definition with_strokes (c : Client) (sts : list Stroke) : Client :=
  mkClient (client_userId c) (client_room c) sts (drawing c) (currentId c)
           (pendingPoints c) (localTempStroke c).

(** [{ ...msg.stroke, points: [] }] *)
Definition with_no_points (s : Stroke) : Stroke :=
  mkStroke (stroke_id s) (stroke_userId s) (stroke_color s) (stroke_size s)
           (stroke_tool s) [] (stroke_removed s).

Definition has_id (id : string) (st : Stroke) : Prop := stroke_id st = id.

#[export] Instance has_id_dec id st : Decision (has_id id st).
Proof. unfold has_id. apply _. Defined.

(** The "message" listener: the new replica state and the messages it sends
    to the authority. *)
Definition client_on_message (ev : Event) (c : Client) : Client * list Msg :=
  match ev with
  | ev_room_state state => (with_strokes c (strokes state), [])
  | ev_begin_stroke stroke =>
      let s := with_no_points stroke in
      if decide (stroke_userId s = client_userId c ∧ drawing c = true
                 ∧ currentId c = None) then
        match pendingPoints c with
        | [] =>
            (mkClient (client_userId c) (client_room c) (client_strokes c ++ [s])
                      (drawing c) (Some (stroke_id s)) [] None, [])
        | _ :: _ =>
            (mkClient (client_userId c) (client_room c)
                      (client_strokes c ++ [push_points (pendingPoints c) s])
                      (drawing c) (Some (stroke_id s)) [] None,
             [msg_add_points (client_room c) (stroke_id s) (pendingPoints c)])
        end
      else (with_strokes c (client_strokes c ++ [s]), [])
  | ev_add_points strokeId points =>
      match list_find (live_with_id strokeId) (client_strokes c) with
      | None => (c, [])
      | Some (i, s) =>
          (with_strokes c (<[i := push_points points s]> (client_strokes c)), [])
      end
  | ev_end_stroke _ => (c, [])
  | ev_remove_stroke strokeId =>
      match list_find (has_id strokeId) (client_strokes c) with
      | Some (i, s) =>
          (with_strokes c (<[i := set_removed (Some true) s]> (client_strokes c)), [])
      | None => (c, [])
      end
  | ev_restore_stroke stroke =>
      match list_find (has_id (stroke_id stroke)) (client_strokes c) with
      | Some (idx, _) => (with_strokes c (<[idx := stroke]> (client_strokes c)), [])
      | None => (with_strokes c (client_strokes c ++ [stroke]), [])
      end
  | ev_clear => (with_strokes c [], [])
  | ev_cursor _ x y =>
      (c, [msg_cursor (client_room c) (client_userId c) x y])
  end.

(** ** Vocabulary of the statements *)

(** The points an inbound message asks to append. *)
Definition payload (msg : Msg) : list Point :=
  match msg with msg_add_points _ _ points => points | _ => [] end.

(** [msg] is an [add_points] or an [end_stroke] addressed to stroke [id]. *)
Definition for_stroke (id : string) (msg : Msg) : Prop :=
  match msg with
  | msg_add_points _ strokeId _ => strokeId = id
  | msg_end_stroke _ strokeId => strokeId = id
  | _ => False
  end.

Definition is_begin_stroke (msg : Msg) : Prop :=
  match msg with msg_begin_stroke _ _ _ _ => True | _ => False end.

(** The stack of a user; a user without an entry has nothing to undo. *)
Definition stack_of (state : RoomState) (userId : string) : list string :=
  default [] (userStacks state !! userId).

(** [id] names no stroke of [sts] that could be removed: a stroke with that
    id is missing, or every such stroke is tombstoned already. *)
Definition stale_in (sts : list Stroke) (id : string) : Prop :=
  Forall (λ s, ¬ live_with_id id s) sts.

(** How many frames of [out] were delivered to connection [c]. *)
Definition copies (c : nat) (out : list Frame) : nat :=
  length (filter (λ f, f.1 = c) out).

(** How often [id] occurs on a stack. *)
Definition occurrences (id : string) (stack : list string) : nat :=
  length (filter (λ j, j = id) stack).

Definition stroke_key (s : Stroke) : Key :=
  (stroke_id s, stroke_userId s, truthy (stroke_removed s)).

Definition key_id (k : Key) : string := k.1.1.

(** The strokes with keys [keys] and the stacks agree: ids are unique, no
    stack holds an id twice, every id on the stack of [u] is the id of a
    stroke of [u] that is not tombstoned, and every stroke that is not
    tombstoned is on the stack of its author. *)
Definition agree (keys : list Key) (stacks : gmap string (list string)) : Prop :=
  NoDup (key_id <$> keys)
  ∧ (∀ u stack, stacks !! u = Some stack → NoDup stack)
  ∧ (∀ u stack id, stacks !! u = Some stack → id ∈ stack → (id, u, false) ∈ keys)
  ∧ (∀ id u, (id, u, false) ∈ keys → id ∈ default [] (stacks !! u)).

Definition consistent (state : RoomState) : Prop :=
  agree (stroke_key <$> strokes state) (userStacks state).

(** The identifier drawn for a [begin_stroke] is not the id of a stroke
    of the sender's room. *)
Definition fresh_uuid (sv : Server) (ws : nat) (msg : Msg) (uuid : string) : Prop :=
  is_begin_stroke msg →
  ∀ s, s ∈ strokes (room_of sv (ws_room (sockets sv ws))) → stroke_id s ≠ uuid.

(** The states [on_message] leads to: the authority starts with no room; it
    handles inbound messages one at a time; connections open, close and
    change state between two turns, which leaves the registry alone.  These
    are the states of the authority when no name is inherited; with
    inherited names they still contain every state the authority is in as
    long as every turn has returned ([reached], below). *)
Inductive reachable : Server → Prop :=
| reachable_start sv : rooms sv = ∅ → reachable sv
| reachable_message sv ws msg uuid :
    reachable sv → fresh_uuid sv ws msg uuid →
    reachable (on_message ws msg uuid sv).1
| reachable_connection sv sv' :
    reachable sv → rooms sv' = rooms sv → reachable sv'.


(** ** The replica's input listeners (main.ts, lines 46-48, 135-197, 224-254) *)

(** [ws.send(msg)] in the browser: it throws while the socket is still
    connecting ([None]), transmits on an open socket, and discards the data
    without an error once the socket is closing or closed. *)
Definition client_send (rs : ReadyState) (msg : Msg) : option (list Msg) :=
  match rs with
  | CONNECTING => None
  | OPEN => Some [msg]
  | CLOSING | CLOSED => Some []
  end.

(** [if (currentId)]: [null] and the empty string are falsy. *)
Definition bound_id (c : Client) : option string :=
  match currentId c with
  | Some id => if decide (id = EmptyString) then None else Some id
  | None => None
  end.

(** The ws part of [renderCursor] (lines 239-254): whichever cursor is drawn,
    the message carries the replica's own [userId]. *)
Definition renderCursor (rs : ReadyState) (x y : number) (c : Client)
  : option (list Msg) :=
  client_send rs (msg_cursor (client_room c) (client_userId c) x y).

(** "pointerdown" (lines 135-154).  The send is the last statement, so a
    throw leaves the state as it is after the assignments. *)
Definition pointerdown (rs : ReadyState) (x y t : number) (color : string)
    (size : number) (tool : Tool) (c : Client) : Client * list Msg :=
  let temp := mkStroke "temp" (client_userId c) color size tool [mkPoint x y t] None in
  (mkClient (client_userId c) (client_room c) (client_strokes c) true None []
            (Some temp),
   default [] (client_send rs (msg_begin_stroke (client_room c) color size tool))).

(** "pointermove" (lines 156-180).  [renderCursor] runs first, so its throw
    ends the listener before anything is recorded.  In both drawing branches
    the point is pushed before the segment is drawn and is queued after it;
    drawing reads [last.x], which throws when the stroke had no point yet,
    and then the point is not queued. *)
Definition pointermove (rs : ReadyState) (x y t : number) (c : Client)
  : Client * list Msg :=
  match renderCursor rs x y c with
  | None => (c, [])
  | Some out =>
      if drawing c then
        let p := mkPoint x y t in
        match bound_id c with
        | Some id =>
            match list_find (live_with_id id) (client_strokes c) with
            | Some (i, s) =>
                let sts := <[i := push_points [p] s]> (client_strokes c) in
                match last (stroke_points s) with
                | Some _ =>
                    (mkClient (client_userId c) (client_room c) sts (drawing c)
                              (currentId c) (pendingPoints c ++ [p])
                              (localTempStroke c), out)
                | None => (with_strokes c sts, out)
                end
            | None => (c, out)
            end
        | None =>
            match localTempStroke c with
            | Some temp =>
                match last (stroke_points temp) with
                | Some _ =>
                    (mkClient (client_userId c) (client_room c) (client_strokes c)
                              (drawing c) (currentId c) (pendingPoints c ++ [p])
                              (Some (push_points [p] temp)), out)
                | None =>
                    (mkClient (client_userId c) (client_room c) (client_strokes c)
                              (drawing c) (currentId c) (pendingPoints c)
                              (Some (push_points [p] temp)), out)
                end
            | None => (c, out)
            end
        end
      else (c, out)
  end.

(** [finishStroke] (lines 186-197), the listener of "pointerup",
    "pointercancel" and "pointerleave".  A throwing send skips the three
    assignments that follow it. *)
Definition finishStroke (rs : ReadyState) (c : Client) : Client * list Msg :=
  if drawing c then
    let idle := mkClient (client_userId c) (client_room c) (client_strokes c)
                         false None [] None in
    match bound_id c with
    | Some id =>
        match client_send rs (msg_end_stroke (client_room c) id) with
        | Some out => (idle, out)
        | None =>
            (mkClient (client_userId c) (client_room c) (client_strokes c) false
                      (currentId c) (pendingPoints c) (localTempStroke c), [])
        end
    | None => (idle, [])
    end
  else (c, []).

(** The callback of [setInterval(..., 16)] (lines 224-229). *)
Definition flush (rs : ReadyState) (c : Client) : Client * list Msg :=
  match pendingPoints c, bound_id c with
  | _ :: _, Some id =>
      match client_send rs (msg_add_points (client_room c) id (pendingPoints c)) with
      | Some out =>
          (mkClient (client_userId c) (client_room c) (client_strokes c) (drawing c)
                    (currentId c) [] (localTempStroke c), out)
      | None => (c, [])
      end
  | _, _ => (c, [])
  end.

(** What happens at a replica besides the arrival of an event. *)
Inductive Input :=
| in_open
| in_pointerdown (x y t : number) (color : string) (size : number) (tool : Tool)
| in_pointermove (x y t : number)
| in_pointerup
| in_tick
| in_undo
| in_redo
| in_clear (confirmed : bool).

(** The listeners of lines 46-48, 135-184, 224-236; [confirmed] is the
    answer to the [confirm] dialog of the clear button. *)
Definition on_input (rs : ReadyState) (i : Input) (c : Client) : Client * list Msg :=
  match i with
  | in_open =>
      (c, default [] (client_send rs (msg_join_room (client_room c) (client_userId c))))
  | in_pointerdown x y t color size tool => pointerdown rs x y t color size tool c
  | in_pointermove x y t => pointermove rs x y t c
  | in_pointerup => finishStroke rs c
  | in_tick => flush rs c
  | in_undo =>
      (c, default [] (client_send rs (msg_undo (client_room c) (client_userId c))))
  | in_redo =>
      (c, default [] (client_send rs (msg_redo (client_room c) (client_userId c))))
  | in_clear confirmed =>
      if confirmed
      then (c, default [] (client_send rs (msg_clear (client_room c))))
      else (c, [])
  end.

(** A stretch of the replica's life: inputs, each with the state the socket
    is in when it happens, in order; the messages transmitted, in order. *)
Fixpoint client_run (inputs : list (ReadyState * Input)) (c : Client)
  : Client * list Msg :=
  match inputs with
  | [] => (c, [])
  | (rs, i) :: rest =>
      let '(c1, out1) := on_input rs i c in
      let '(c2, out2) := client_run rest c1 in
      (c2, out1 ++ out2)
  end.

(** ** Authority and replica together *)

(** The replica behind connection [c] handles the frames of [out] that are
    addressed to it, in the order sent; the messages it sends back. *)
Fixpoint deliver (c : nat) (out : list Frame) (cl : Client) : Client * list Msg :=
  match out with
  | [] => (cl, [])
  | (c', ev) :: rest =>
      if decide (c' = c) then
        let '(cl1, m1) := client_on_message ev cl in
        let '(cl2, m2) := deliver c rest cl1 in
        (cl2, m1 ++ m2)
      else deliver c rest cl
  end.

(** ** More vocabulary *)

Definition is_join_room (msg : Msg) : Prop :=
  match msg with msg_join_room _ _ => True | _ => False end.



(** The strokes of [userId] that an [undo] could remove. *)
Definition live_by (userId : string) (s : Stroke) : Prop :=
  stroke_userId s = userId ∧ truthy (stroke_removed s) = false.

#[export] Instance live_by_dec userId s : Decision (live_by userId s).
Proof. unfold live_by. apply _. Defined.

(** The replica is about to bind the next [begin_stroke] event of its own
    user: the condition of main.ts, line 66, but for the author. *)
Definition awaiting_echo (cl : Client) : Prop :=
  drawing cl = true ∧ currentId cl = None.


(** The pointer moves to the place and at the time of [p]. *)
Definition move_to (p : Point) : Input :=
  in_pointermove (point_x p) (point_y p) (point_t p).

(** The point a listener builds from an input, if any. *)
Definition moved (i : Input) : list Point :=
  match i with in_pointermove x y t => [mkPoint x y t] | _ => [] end.

Definition is_move_or_tick (i : Input) : Prop :=
  match i with in_pointermove _ _ _ | in_tick => True | _ => False end.

(** The [cursor] message [renderCursor] sends for the position of [p]. *)
Definition cursor_at (c : Client) (p : Point) : Msg :=
  msg_cursor (client_room c) (client_userId c) (point_x p) (point_y p).

(** All the points a list of outbound messages carries, in order. *)
Definition points_sent (out : list Msg) : list Point :=
  concat (payload <$> out).


(** The replica is drawing the stroke [s], bound under [id], which is the
    entry of the mirror that [find] returns for [id]. *)
Definition bound_to (cl : Client) (id : string) (l1 : list Stroke) (s : Stroke)
    (l2 : list Stroke) : Prop :=
  drawing cl = true ∧ bound_id cl = Some id
  ∧ client_strokes cl = l1 ++ s :: l2
  ∧ live_with_id id s ∧ Forall (λ s', ¬ live_with_id id s') l1.


(** ** Connection set-up (server.ts, lines 50-52) *)

(** The "connection" listener: the socket starts in room "default" under a
    random user id. *)
Definition on_connection (ws : nat) (uuid : string) (sv : Server) : Server :=
  mkServer (rooms sv)
           (<[ws := mkSocket "default" uuid (ws_readyState (sockets sv ws))]>
              (sockets sv))
           (clients sv).

(** ** Names inherited from [Object.prototype] (server.ts, lines 32-36, 86, 106, 125)

    [rooms] and every [userStacks] are object literals.  A lookup under a
    name the object does not own yields what [Object.prototype] has under
    that name: a built-in function, or, for "__proto__", the prototype
    object itself.  Either is truthy, so [getRoom] and [||=] create nothing
    and hand the inherited object on. *)

(** What an inherited name yields: a built-in function, with the value of
    its [length] property, or [Object.prototype], which has none. *)
Inductive Builtin := builtin_function (arity : nat) | the_prototype.

Definition Object_prototype : list (string * Builtin) :=
  [ ("constructor", builtin_function 1);
    ("__defineGetter__", builtin_function 2);
    ("__defineSetter__", builtin_function 2);
    ("hasOwnProperty", builtin_function 1);
    ("__lookupGetter__", builtin_function 1);
    ("__lookupSetter__", builtin_function 1);
    ("isPrototypeOf", builtin_function 1);
    ("propertyIsEnumerable", builtin_function 1);
    ("toString", builtin_function 0);
    ("valueOf", builtin_function 0);
    ("__proto__", the_prototype);
    ("toLocaleString", builtin_function 0) ].

Definition inherited (k : string) : option Builtin :=
  (list_to_map Object_prototype : gmap string Builtin) !! k.

(** A name under which a lookup that misses yields [undefined]. *)
Definition plain (k : string) : Prop := inherited k = None.

(** A frame as it leaves the authority: an event of the protocol, or [None]
    for the [room_state] frame of an inherited object, which carries no
    [strokes]. *)
Definition Sent : Type := nat * option Event.

Definition sent (out : list Frame) : list Sent := (λ f, (f.1, Some f.2)) <$> out.

(** How a turn of the "message" listener ends: it returns; or it throws a
    [TypeError], with the state as the statements before the throw left it
    and the frames sent until then; or it has assigned [strokes] and
    [userStacks] to an object of [Object.prototype], which later lookups
    inherit, so that [Server] no longer describes the registry. *)
Inductive Outcome :=
| returned (sv : Server) (out : list Sent)
| threw (sv : Server) (out : list Sent)
| tainted (out : list Sent).

Definition as_returned (res : Server * list Frame) : Outcome :=
  returned res.1 (sent res.2).

(** One turn of the "message" listener for a message that parsed, whatever
    the names.  An own property is found first.  For a room name that is
    inherited and not owned, [getRoom] returns the inherited object: its
    [strokes] and [userStacks] are [undefined], so the cases that read them
    throw before they change anything, the two relays go through, and
    [clear] assigns to the inherited object.  In an own room, a user id that
    is inherited and not owned makes [userStacks[userId]] a built-in object:
    [push] and [pop] on it throw, [begin_stroke] after the stroke has been
    appended and before anything is sent, [redo] after the stroke found has
    been untombstoned, [undo] when the built-in's [length] is not zero.
    Everywhere else the turn is the one of [on_message]. *)
Definition listener (ws : nat) (msg : Msg) (uuid : string) (sv : Server)
  : Outcome :=
  match msg with
  | msg_join_room room userId =>
      match rooms sv !! room, inherited room with
      | None, Some _ =>
          let sock := sockets sv ws in
          let sock' := mkSocket room
                         (if decide (userId = EmptyString)
                          then ws_userId sock else userId)
                         (ws_readyState sock) in
          returned (mkServer (rooms sv) (<[ws := sock']> (sockets sv)) (clients sv))
                   (if decide (ws_readyState sock = OPEN) then [(ws, None)] else [])
      | _, _ => as_returned (on_message ws msg uuid sv)
      end
  | _ =>
      let room := ws_room (sockets sv ws) in
      match rooms sv !! room, inherited room with
      | None, Some _ =>
          match msg with
          | msg_end_stroke _ strokeId =>
              returned sv (sent (broadcast sv room (ev_end_stroke strokeId) (Some ws)))
          | msg_cursor _ userId x y =>
              returned sv (sent (broadcast sv room (ev_cursor userId x y) (Some ws)))
          | msg_clear _ => tainted (sent (broadcast sv room ev_clear None))
          | _ => threw sv []
          end
      | _, _ =>
          let '(state, rs) := getRoom room (rooms sv) in
          match msg with
          | msg_begin_stroke _ color size tool =>
              let userId := ws_userId (sockets sv ws) in
              match userStacks state !! userId, inherited userId with
              | None, Some _ =>
                  let s := mkStroke uuid userId color size tool [] None in
                  threw (with_room sv room
                           (mkRoomState (strokes state ++ [s]) (userStacks state)) rs)
                        []
              | _, _ => as_returned (on_message ws msg uuid sv)
              end
          | msg_undo _ userId =>
              match userStacks state !! userId, inherited userId with
              | None, Some (builtin_function (S _)) =>
                  threw (mkServer rs (sockets sv) (clients sv)) []
              | _, _ => as_returned (on_message ws msg uuid sv)
              end
          | msg_redo _ userId =>
              match userStacks state !! userId, inherited userId,
                    case_redo userId state with
              | None, Some _, (state', Some _) =>
                  threw (with_room sv room
                           (mkRoomState (strokes state') (userStacks state)) rs)
                        []
              | _, _, _ => as_returned (on_message ws msg uuid sv)
              end
          | _ => as_returned (on_message ws msg uuid sv)
          end
      end
  end.

(** The turn meets no inherited name: the room [getRoom] is called with is
    plain, and so is the user id whose stack the case looks up. *)
Definition plain_turn (sv : Server) (ws : nat) (msg : Msg) : Prop :=
  match msg with
  | msg_join_room room _ => plain room
  | msg_begin_stroke _ _ _ _ =>
      plain (ws_room (sockets sv ws)) ∧ plain (ws_userId (sockets sv ws))
  | msg_undo _ userId | msg_redo _ userId =>
      plain (ws_room (sockets sv ws)) ∧ plain userId
  | _ => plain (ws_room (sockets sv ws))
  end.

(** A run of the listener: the turns of the inputs in order, as long as every
    one of them returns; [None] once a turn has thrown or tainted. *)
Fixpoint listen (inputs : list (nat * Msg * string)) (sv : Server)
  : option (Server * list Sent) :=
  match inputs with
  | [] => Some (sv, [])
  | (ws, msg, uuid) :: rest =>
      match listener ws msg uuid sv with
      | returned sv1 out1 =>
          match listen rest sv1 with
          | Some (sv2, out2) => Some (sv2, out1 ++ out2)
          | None => None
          end
      | _ => None
      end
  end.

(** The states the authority is in as long as every turn has returned: it
    starts with no room; a turn that returns takes it to the next state;
    connections open, close and change state between two turns. *)
Inductive reached : Server → Prop :=
| reached_start sv : rooms sv = ∅ → reached sv
| reached_turn sv ws msg uuid sv' out :
    reached sv → fresh_uuid sv ws msg uuid →
    listener ws msg uuid sv = returned sv' out →
    reached sv'
| reached_connection sv sv' :
    reached sv → rooms sv' = rooms sv → reached sv'.

(** ** Frames on the wire (server.ts, lines 45, 67, 90; main.ts, line 51)

    A frame is the [JSON.stringify] of the event, and the replica handles
    the [JSON.parse] of the frame.  Strings, booleans, arrays and absent
    properties come back as they were.  [rt] is what the round trip makes of
    the content of a number slot: [Infinity], which [JSON.parse] gives for an
    inbound 1e999, comes back as [null], and [-0] as [0]; every other number
    comes back as it was. *)

Section wire.

Variable rt : number → number.

Definition wire_point (p : Point) : Point :=
  mkPoint (rt (point_x p)) (rt (point_y p)) (rt (point_t p)).

Definition wire_stroke (s : Stroke) : Stroke :=
  mkStroke (stroke_id s) (stroke_userId s) (stroke_color s) (rt (stroke_size s))
           (stroke_tool s) (wire_point <$> stroke_points s) (stroke_removed s).

Definition wire_event (ev : Event) : Event :=
  match ev with
  | ev_room_state state =>
      ev_room_state (mkRoomState (wire_stroke <$> strokes state) (userStacks state))
  | ev_begin_stroke stroke => ev_begin_stroke (wire_stroke stroke)
  | ev_add_points strokeId points => ev_add_points strokeId (wire_point <$> points)
  | ev_restore_stroke stroke => ev_restore_stroke (wire_stroke stroke)
  | ev_cursor userId x y => ev_cursor userId (rt x) (rt y)
  | ev_end_stroke _ | ev_remove_stroke _ | ev_clear => ev
  end.

(** The frames as the replicas parse them. *)
Definition on_the_wire (out : list Frame) : list Frame :=
  (λ f, (f.1, wire_event f.2)) <$> out.

End wire.

End Model.

(** ** Sample data for the concrete runs

    Four connections: 0 (alice) and 1 (bob) are open in "studio", 2 (carol)
    is open in "lobby", 3 (dave) is in "studio" but already closed. *)

Definition pt (n : Z) : @Point Z := mkPoint n n n.

(** The identifier drawn in a turn that does not begin a stroke. *)
Definition unused : string := "unused".

Definition sample_sockets (c : nat) : Socket :=
  match c with
  | 0 => mkSocket "studio" "alice" OPEN
  | 1 => mkSocket "studio" "bob" OPEN
  | 2 => mkSocket "lobby" "carol" OPEN
  | _ => mkSocket "studio" "dave" CLOSED
  end.

Definition fresh_server : @Server Z := mkServer ∅ sample_sockets [0; 1; 2; 3].

Definition stroke_A : @Stroke Z := mkStroke "A" "alice" "#112233" 2%Z pen [pt 1; pt 2] None.
Definition stroke_B : @Stroke Z := mkStroke "B" "alice" "#445566" 3%Z pen [pt 3] None.
Definition stroke_C : @Stroke Z := mkStroke "C" "alice" "#778899" 4%Z eraser [pt 4; pt 5; pt 6] None.

(** Alice has drawn A, B and C, in that order. *)
Definition server_ABC : @Server Z :=
  mkServer {[ "studio" := mkRoomState [stroke_A; stroke_B; stroke_C]
                            {[ "alice" := ["C"; "B"; "A"] ]} ]}
           sample_sockets [0; 1; 2; 3].

(** The same room with an id on top of alice's stack that names no stroke. *)
Definition server_ghost : @Server Z :=
  mkServer {[ "studio" := mkRoomState [stroke_A; stroke_B; stroke_C]
                            {[ "alice" := ["ghost"; "C"; "B"; "A"] ]} ]}
           sample_sockets [0; 1; 2; 3].

(** A room whose only stroke is tombstoned and off the stack. *)
Definition server_tombstoned : @Server Z :=
  mkServer {[ "studio" := mkRoomState [set_removed (Some true) stroke_A]
                            {[ "alice" := [] ]} ]}
           sample_sockets [0; 1; 2; 3].

(** The empty server once bob's connection has joined the room
    "__proto__". *)
Definition server_in_proto : @Server Z :=
  mkServer ∅ (<[1 := mkSocket "__proto__" "bob" OPEN]> sample_sockets) [0; 1; 2; 3].

(** Alice's replica before she has drawn anything, and while she draws the
    bound stroke A; bob's replica mirroring the sample room. *)
Definition alice_idle : @Client Z := mkClient "alice" "studio" [] false None [] None.

Definition alice_drawing_A : @Client Z :=
  mkClient "alice" "studio" [stroke_A] true (Some "A") [] None.

Definition bob_watching : @Client Z :=
  mkClient "bob" "studio" [stroke_A; stroke_B; stroke_C] false None [] None.

(** The echo of a stroke alice has just begun. *)
Definition echo_S1 : @Stroke Z := mkStroke "S1" "alice" "#112233" 2%Z pen [] None.

(** * Properties *)

Section Properties.

Context {number : Type}.

Implicit Types (sv : @Server number) (state : @RoomState number)
  (s : @Stroke number) (sts : list (@Stroke number)) (msg : @Msg number)
  (out : list (@Frame number)) (rs : gmap string (@RoomState number)).

(** ** The registry *)

Lemma getRoom_fst room rs : (getRoom room rs).1 = default empty_room (rs !! room).
Proof. unfold getRoom. by destruct (rs !! room). Qed.

Lemma getRoom_snd_lookup room rs r :
  default empty_room ((getRoom room rs).2 !! r) = default empty_room (rs !! r).
Proof.
  unfold getRoom. destruct (rs !! room) eqn:E; simpl; [done|].
  destruct (decide (room = r)) as [->|Hne].
  - by rewrite lookup_insert_eq, E.
  - by rewrite lookup_insert_ne.
Qed.

Lemma room_of_lookup sv r : room_of sv r = default empty_room (rooms sv !! r).
Proof. apply getRoom_fst. Qed.

Lemma room_of_getRoom sv room r :
  room_of (mkServer (getRoom room (rooms sv)).2 (sockets sv) (clients sv)) r
  = room_of sv r.
Proof. rewrite !room_of_lookup. apply getRoom_snd_lookup. Qed.

Lemma room_of_with_room sv room state r :
  room_of (with_room sv room state (getRoom room (rooms sv)).2) r
  = if decide (r = room) then state else room_of sv r.
Proof.
  rewrite !room_of_lookup. unfold with_room. simpl.
  destruct (decide (r = room)) as [->|Hne].
  - by rewrite lookup_insert_eq.
  - rewrite lookup_insert_ne by done. apply getRoom_snd_lookup.
Qed.

Lemma room_of_with_room_same sv room r :
  room_of (with_room sv room (room_of sv room) (getRoom room (rooms sv)).2) r
  = room_of sv r.
Proof. rewrite room_of_with_room. by case_decide; subst. Qed.

Lemma room_of_registry sv sv' r : rooms sv' = rooms sv → room_of sv' r = room_of sv r.
Proof. unfold room_of. by intros ->. Qed.

(** ** The fan-out *)

Lemma elem_of_broadcast sv room data except c ev :
  (c, ev) ∈ broadcast sv room data except
  ↔ ev = data ∧ c ∈ clients sv ∧ is_recipient sv room except c.
Proof.
  unfold broadcast. rewrite list_elem_of_fmap. split.
  - intros (c' & [= -> ->] & Hin). apply list_elem_of_filter in Hin. tauto.
  - intros (-> & Hin & Hrec). exists c. split; [done|].
    apply list_elem_of_filter. tauto.
Qed.

Lemma elem_of_broadcast_except sv room data ws c ev :
  (c, ev) ∈ broadcast sv room data (Some ws)
  ↔ ev = data ∧ c ∈ clients sv ∧ ws_readyState (sockets sv c) = OPEN
    ∧ ws_room (sockets sv c) = room ∧ c ≠ ws.
Proof.
  rewrite elem_of_broadcast. unfold is_recipient.
  split; intros (? & ? & ? & ? & ?); repeat split; try done; congruence.
Qed.

Lemma elem_of_broadcast_all sv room data c ev :
  (c, ev) ∈ broadcast sv room data None
  ↔ ev = data ∧ c ∈ clients sv ∧ ws_readyState (sockets sv c) = OPEN
    ∧ ws_room (sockets sv c) = room.
Proof.
  rewrite elem_of_broadcast. unfold is_recipient.
  split; [intros (? & ? & ? & ? & ?)|intros (? & ? & ? & ?)]; repeat split; done.
Qed.

(** ** Turns that meet no inherited name *)

Lemma listener_plain ws msg uuid sv :
  plain_turn sv ws msg →
  listener ws msg uuid sv = as_returned (on_message ws msg uuid sv).
Proof.
  unfold plain. destruct msg; simpl; intros Hplain; unfold listener.
  - rewrite Hplain. by destruct (rooms sv !! room).
  - destruct Hplain as [Hroom Huser]. rewrite Hroom.
    destruct (rooms sv !! _), (getRoom _ _) as [state rs0];
      rewrite Huser; by destruct (userStacks state !! _).
  - rewrite Hplain. by destruct (rooms sv !! _), (getRoom _ _).
  - rewrite Hplain. by destruct (rooms sv !! _), (getRoom _ _).
  - destruct Hplain as [Hroom Huser]. rewrite Hroom.
    destruct (rooms sv !! _), (getRoom _ _) as [state rs0];
      rewrite Huser; by destruct (userStacks state !! _).
  - destruct Hplain as [Hroom Huser]. rewrite Hroom.
    destruct (rooms sv !! _), (getRoom _ _) as [state rs0];
      rewrite Huser; by destruct (userStacks state !! _).
  - rewrite Hplain. by destruct (rooms sv !! _), (getRoom _ _).
  - rewrite Hplain. by destruct (rooms sv !! _), (getRoom _ _).
Qed.

(** A turn that returns has taken the step of [on_message], or it has left
    the registry as it was. *)
Lemma listener_returned ws msg uuid sv sv' (out' : list (@Sent number)) :
  listener ws msg uuid sv = returned sv' out' →
  sv' = (on_message ws msg uuid sv).1 ∨ rooms sv' = rooms sv.
Proof.
  assert (Hmodel : as_returned (on_message ws msg uuid sv) = returned sv' out' →
                   sv' = (on_message ws msg uuid sv).1 ∨ rooms sv' = rooms sv).
  { intros [= <- _]. by left. }
  unfold listener. destruct msg; repeat case_match;
    try exact Hmodel; try discriminate; intros [= <- _]; by right.
Qed.

Lemma reached_reachable sv : reached sv → reachable sv.
Proof.
  induction 1 as [sv Hstart|sv ws msg uuid sv' out' _ IH Hfresh Hturn
                 |sv sv' _ IH Hrooms].
  - by apply reachable_start.
  - destruct (listener_returned _ _ _ _ _ _ Hturn) as [->|Hrooms].
    + by apply reachable_message.
    + by apply (reachable_connection sv).
  - by apply (reachable_connection sv).
Qed.


(** ** end_stroke *)

(** C10: handling an [end_stroke] message leaves the state of every room
    (strokes and user stacks), the sockets and the client set as they were;
    its only effect is one [end_stroke] frame for every open connection of
    the sender's room other than the sender. *)
Theorem C10_end_stroke_only_relays ws room strokeId uuid sv :
  let res := on_message ws (msg_end_stroke room strokeId) uuid sv in
  let r := ws_room (sockets sv ws) in
  (∀ r', room_of res.1 r' = room_of sv r')
  ∧ sockets res.1 = sockets sv
  ∧ clients res.1 = clients sv
  ∧ res.2 = broadcast sv r (ev_end_stroke strokeId) (Some ws)
  ∧ (∀ c ev, (c, ev) ∈ res.2 ↔
       ev = ev_end_stroke strokeId ∧ c ∈ clients sv
       ∧ ws_readyState (sockets sv c) = OPEN ∧ ws_room (sockets sv c) = r
       ∧ c ≠ ws).
Proof.
  intros res r. subst res r. unfold on_message.
  rewrite (surjective_pairing (getRoom _ _)). simpl.
  split; [intros r'; apply room_of_getRoom|].
  split; [done|]. split; [done|]. split; [done|].
  intros c ev. apply (elem_of_broadcast_except sv).
Qed.

(** ** Arrays: [find] and the update of the element found *)

Section find.
Context {A : Type} (P : A → Prop) `{!∀ a, Decision (P a)}.

Lemma list_find_middle (l1 l2 : list A) a :
  P a → Forall (λ b, ¬ P b) l1 → list_find P (l1 ++ a :: l2) = Some (length l1, a).
Proof.
  intros Ha Hl1. induction Hl1 as [|b l1 Hb _ IH]; simpl.
  - by rewrite decide_True.
  - rewrite decide_False by done. by rewrite IH.
Qed.

Lemma list_find_none (l : list A) :
  Forall (λ b, ¬ P b) l → list_find P l = None.
Proof. intros Hl. by apply list_find_None. Qed.

Lemma insert_middle (l1 l2 : list A) a b :
  <[length l1 := b]> (l1 ++ a :: l2) = l1 ++ b :: l2.
Proof. induction l1 as [|c l1 IH]; simpl; [done|]. by rewrite IH. Qed.

(** What [find] returns splits the array around the element found. *)
Lemma list_find_split (l : list A) i a :
  list_find P l = Some (i, a) →
  ∃ l1 l2, l = l1 ++ a :: l2 ∧ i = length l1 ∧ P a ∧ Forall (λ b, ¬ P b) l1.
Proof.
  intros Hfind. apply list_find_Some in Hfind as (Hi & Ha & Hbefore).
  exists (take i l), (drop (S i) l).
  assert (i < length l) by (by eapply lookup_lt_Some).
  split; [by rewrite take_drop_middle|].
  split; [rewrite length_take; lia|]. split; [done|].
  apply Forall_lookup_2. intros j b Hj.
  assert (j < i).
  { apply lookup_lt_Some in Hj. rewrite length_take in Hj. lia. }
  rewrite lookup_take_lt in Hj by done. by eapply Hbefore.
Qed.
End find.

(** ** The turns of the handler, case by case *)

Lemma on_message_add_points ws room strokeId points uuid sv :
  on_message ws (msg_add_points room strokeId points) uuid sv =
  let r := ws_room (sockets sv ws) in
  let rs := (getRoom r (rooms sv)).2 in
  match case_add_points strokeId points (room_of sv r) with
  | None => (mkServer rs (sockets sv) (clients sv), [])
  | Some (state', id, pts) =>
      (with_room sv r state' rs, broadcast sv r (ev_add_points id pts) (Some ws))
  end.
Proof.
  unfold on_message, room_of. rewrite (surjective_pairing (getRoom _ _)). simpl.
  by destruct (case_add_points _ _ _) as [[[??]?]|].
Qed.

Lemma on_message_undo ws room userId uuid sv :
  on_message ws (msg_undo room userId) uuid sv =
  let r := ws_room (sockets sv ws) in
  let res := case_undo userId (room_of sv r) in
  (with_room sv r res.1 (getRoom r (rooms sv)).2,
   match res.2 with
   | Some id => broadcast sv r (ev_remove_stroke id) None
   | None => []
   end).
Proof.
  unfold on_message, room_of. rewrite (surjective_pairing (getRoom _ _)). simpl.
  by destruct (case_undo _ _) as [? [?|]].
Qed.

Lemma on_message_redo ws room userId uuid sv :
  on_message ws (msg_redo room userId) uuid sv =
  let r := ws_room (sockets sv ws) in
  let res := case_redo userId (room_of sv r) in
  (with_room sv r res.1 (getRoom r (rooms sv)).2,
   match res.2 with
   | Some s => broadcast sv r (ev_restore_stroke s) None
   | None => []
   end).
Proof.
  unfold on_message, room_of. rewrite (surjective_pairing (getRoom _ _)). simpl.
  by destruct (case_redo _ _) as [? [?|]].
Qed.

Lemma on_message_begin_stroke ws room color size tool uuid sv :
  on_message ws (msg_begin_stroke room color size tool) uuid sv =
  let r := ws_room (sockets sv ws) in
  let res := case_begin_stroke uuid (ws_userId (sockets sv ws)) color size tool
               (room_of sv r) in
  (with_room sv r res.1 (getRoom r (rooms sv)).2,
   broadcast sv r (ev_begin_stroke res.2) None ++ send sv ws (ev_begin_stroke res.2)).
Proof.
  unfold on_message, room_of. by rewrite (surjective_pairing (getRoom _ _)).
Qed.

Lemma on_message_clear ws room uuid sv :
  on_message ws (msg_clear room) uuid sv =
  let r := ws_room (sockets sv ws) in
  (with_room sv r (mkRoomState [] ∅) (getRoom r (rooms sv)).2,
   broadcast sv r ev_clear None).
Proof.
  unfold on_message, room_of. by rewrite (surjective_pairing (getRoom _ _)).
Qed.

(** ** add_points *)

Lemma case_add_points_miss strokeId points state :
  Forall (λ s, ¬ live_with_id strokeId s) (strokes state) →
  case_add_points strokeId points state = None.
Proof. intros H. unfold case_add_points. by rewrite list_find_none. Qed.

Lemma case_add_points_hit strokeId points state l1 s l2 :
  strokes state = l1 ++ s :: l2 →
  live_with_id strokeId s →
  Forall (λ s', ¬ live_with_id strokeId s') l1 →
  case_add_points strokeId points state
  = Some (mkRoomState (l1 ++ push_points (take 200 points) s :: l2)
            (userStacks state), strokeId, take 200 points).
Proof.
  intros Hsts Hs Hl1. unfold case_add_points.
  rewrite Hsts, (list_find_middle _ _ _ _ Hs Hl1), insert_middle.
  by destruct Hs as [-> _].
Qed.

(** X27: from a connection in a room whose name is not inherited, an
    [add_points] whose [strokeId] names no stroke of the room, or only
    tombstoned ones, is a silent no-op: the listener returns, no room state
    changes, no socket changes, and no frame is sent to anybody. *)
Theorem X27_add_points_miss_is_a_silent_noop ws room strokeId points uuid sv :
  plain (ws_room (sockets sv ws)) →
  (∀ s, s ∈ strokes (room_of sv (ws_room (sockets sv ws))) →
        stroke_id s = strokeId → truthy (stroke_removed s) = true) →
  let res := on_message ws (msg_add_points room strokeId points) uuid sv in
  listener ws (msg_add_points room strokeId points) uuid sv = returned res.1 []
  ∧ (∀ r', room_of res.1 r' = room_of sv r')
  ∧ sockets res.1 = sockets sv
  ∧ clients res.1 = clients sv
  ∧ res.2 = [].
Proof.
  intros Hplain Hmiss res.
  assert (Hturn : listener ws (msg_add_points room strokeId points) uuid sv
                  = as_returned res) by (by apply listener_plain).
  assert (Hnone : res.2 = []
                  ∧ (∀ r', room_of res.1 r' = room_of sv r')
                  ∧ sockets res.1 = sockets sv ∧ clients res.1 = clients sv);
    [|destruct Hnone as (Hout & ? & ? & ?); split; [|done];
      rewrite Hturn; unfold as_returned; by rewrite Hout].
  clear Hturn. subst res. rewrite on_message_add_points. simpl.
  rewrite case_add_points_miss.
  - split; [done|]. split; [intros r'; apply room_of_getRoom|done].
  - apply Forall_forall. intros s Hin [Hid Hlive].
    specialize (Hmiss s Hin Hid). congruence.
Qed.

(** C4: an [add_points] addressed to an existing stroke that is not tombstoned
    appends the first 200 points of the batch, and only those, to that stroke,
    and sends exactly that truncated batch to every open connection of the
    room except the sender; of a batch of 250 points the first 200 are kept
    and the last 50 dropped. *)
Theorem C4_add_points_truncates_to_200 ws room strokeId points uuid sv l1 s l2 :
  let r := ws_room (sockets sv ws) in
  strokes (room_of sv r) = l1 ++ s :: l2 →
  live_with_id strokeId s →
  Forall (λ s', ¬ live_with_id strokeId s') l1 →
  let res := on_message ws (msg_add_points room strokeId points) uuid sv in
  let pts := take 200 points in
  strokes (room_of res.1 r) = l1 ++ push_points pts s :: l2
  ∧ stroke_points (push_points pts s) = stroke_points s ++ pts
  ∧ userStacks (room_of res.1 r) = userStacks (room_of sv r)
  ∧ (∀ r', r' ≠ r → room_of res.1 r' = room_of sv r')
  ∧ (∀ c ev, (c, ev) ∈ res.2 ↔
       ev = ev_add_points strokeId pts ∧ c ∈ clients sv
       ∧ ws_readyState (sockets sv c) = OPEN ∧ ws_room (sockets sv c) = r
       ∧ c ≠ ws)
  ∧ length pts ≤ 200
  ∧ (length points = 250 →
       length pts = 200 ∧ points = pts ++ drop 200 points
       ∧ length (drop 200 points) = 50).
Proof.
  intros r Hsts Hs Hl1 res pts. subst res. rewrite on_message_add_points. simpl.
  fold r. rewrite (case_add_points_hit _ _ _ _ _ _ Hsts Hs Hl1). simpl.
  rewrite !room_of_with_room. rewrite decide_True by done. simpl.
  split; [done|]. split; [done|]. split; [done|].
  split; [intros r' Hne; rewrite room_of_with_room; by rewrite decide_False|].
  split; [intros c ev; apply (elem_of_broadcast_except sv)|].
  subst pts. rewrite length_take. split; [lia|].
  intros Hlen. rewrite length_drop, take_drop. repeat split; lia.
Qed.

(** ** undo *)

Lemma undo_loop_stale sts stale tail :
  Forall (stale_in sts) stale → undo_loop sts (stale ++ tail) = undo_loop sts tail.
Proof.
  induction 1 as [|id stale Hid _ IH]; simpl; [done|].
  by rewrite (list_find_none _ _ Hid).
Qed.

Lemma undo_loop_hit sts id rest l1 s l2 :
  sts = l1 ++ s :: l2 → live_with_id id s →
  Forall (λ s', ¬ live_with_id id s') l1 →
  undo_loop sts (id :: rest) = (rest, Some (length l1, s, id)).
Proof. intros -> Hs Hl1. simpl. by rewrite (list_find_middle _ _ _ _ Hs Hl1). Qed.

Lemma case_undo_hit userId state stale id rest l1 s l2 :
  userStacks state !! userId = Some (stale ++ id :: rest) →
  Forall (stale_in (strokes state)) stale →
  strokes state = l1 ++ s :: l2 → live_with_id id s →
  Forall (λ s', ¬ live_with_id id s') l1 →
  case_undo userId state
  = (mkRoomState (l1 ++ set_removed (Some true) s :: l2)
       (<[userId := rest]> (userStacks state)), Some id).
Proof.
  intros Hstack Hstale Hsts Hs Hl1. unfold case_undo. rewrite Hstack.
  rewrite (undo_loop_stale _ _ _ Hstale).
  rewrite (undo_loop_hit _ _ _ _ _ _ Hsts Hs Hl1).
  by rewrite Hsts, insert_middle.
Qed.

Lemma case_undo_exhausted userId state stale :
  userStacks state !! userId = Some stale →
  Forall (stale_in (strokes state)) stale →
  case_undo userId state
  = (mkRoomState (strokes state) (<[userId := []]> (userStacks state)), None).
Proof.
  intros Hstack Hstale. unfold case_undo. rewrite Hstack.
  rewrite <- (app_nil_r stale) at 1. by rewrite (undo_loop_stale _ _ _ Hstale).
Qed.

Lemma case_undo_nothing userId state :
  userStacks state !! userId = None ∨ userStacks state !! userId = Some [] →
  case_undo userId state = (state, None).
Proof.
  intros [Hstack|Hstack]; unfold case_undo; rewrite Hstack; [done|]. simpl.
  destruct state as [sts stacks]. simpl in *. by rewrite insert_id.
Qed.

(** ** redo *)

Lemma Forall_reverse {A} (P : A → Prop) (l : list A) :
  Forall P l → Forall P (reverse l).
Proof.
  rewrite !Forall_forall. intros H a Ha. apply H. by apply elem_of_reverse.
Qed.

(** The reverse scan stops at the last stroke of the array that [userId]
    authored and that is tombstoned. *)
Lemma case_redo_last userId state pre s post :
  strokes state = pre ++ s :: post →
  removed_by userId s →
  Forall (λ s', ¬ removed_by userId s') post →
  case_redo userId state
  = (mkRoomState (pre ++ set_removed (Some false) s :: post)
       (push_id userId (stroke_id s) (userStacks state)),
     Some (set_removed (Some false) s)).
Proof.
  intros Hsts Hs Hpost. unfold case_redo. rewrite Hsts.
  rewrite reverse_app, reverse_cons, <- app_assoc. simpl.
  rewrite (list_find_middle _ _ _ _ Hs (Forall_reverse _ _ Hpost)).
  rewrite insert_middle.
  rewrite reverse_app, reverse_cons, !reverse_involutive, <- app_assoc.
  done.
Qed.

Lemma case_redo_none userId state :
  Forall (λ s, ¬ removed_by userId s) (strokes state) →
  case_redo userId state = (state, None).
Proof.
  intros H. unfold case_redo.
  by rewrite (list_find_none _ _ (Forall_reverse _ _ H)).
Qed.

(** C5, as the code has it: when an [undo] has tombstoned a stroke authored
    by [userId] and no stroke created after it by the same author is
    tombstoned, the [redo] that follows restores that stroke, at its place
    and with the points and styling it had before the [undo]. *)
Theorem C5_redo_after_undo_restores_points ws room userId uuid uuid' sv pre s post :
  let r := ws_room (sockets sv ws) in
  let sv1 := (on_message ws (msg_undo room userId) uuid sv).1 in
  let res := on_message ws (msg_redo room userId) uuid' sv1 in
  let s' := set_removed (Some false) s in
  strokes (room_of sv r) = pre ++ s :: post →
  truthy (stroke_removed s) = false →
  strokes (room_of sv1 r) = pre ++ set_removed (Some true) s :: post →
  stroke_userId s = userId →
  Forall (λ s', ¬ removed_by userId s') post →
  strokes (room_of res.1 r) = pre ++ s' :: post
  ∧ stroke_points s' = stroke_points s
  ∧ stroke_id s' = stroke_id s
  ∧ truthy (stroke_removed s') = false
  ∧ res.2 = broadcast sv r (ev_restore_stroke s') None.
Proof.
  intros r sv1 res s' _ _ Hafter Hauthor Hpost. subst res.
  rewrite on_message_redo. simpl.
  assert (Hr : ws_room (sockets sv1 ws) = r).
  { subst sv1. by rewrite on_message_undo. }
  rewrite Hr.
  assert (Htomb : removed_by userId (set_removed (Some true) s)) by done.
  rewrite (case_redo_last _ _ _ _ _ Hafter Htomb Hpost). simpl.
  rewrite room_of_with_room, decide_True by done. simpl.
  split; [done|]. split; [done|]. split; [done|]. split; [done|].
  subst sv1. by rewrite on_message_undo.
Qed.

Lemma NoDup_ids_before l1 s l2 :
  NoDup (stroke_id <$> (l1 ++ s :: l2)) →
  Forall (λ s', ¬ live_with_id (stroke_id s) s') l1.
Proof.
  rewrite fmap_app, NoDup_app. intros (_ & Hdisj & _).
  apply Forall_forall. intros s' Hin [Hid _].
  apply (Hdisj (stroke_id s')).
  - by apply list_elem_of_fmap_2.
  - rewrite Hid. simpl. left.
Qed.

(** C2, as the code has it: in a room whose stroke ids are unique, with
    strokes A, B, C created in that order by one user, none tombstoned, C and
    B on top of the user's stack, and no stroke of that user created after C
    tombstoned, two [undo]s tombstone C and then B, and the [redo] that
    follows restores C, the most recently created tombstoned stroke of that
    user; B stays tombstoned.  C's id is pushed back onto the user's stack,
    and [restore_stroke] carries the whole stroke C with its accumulated
    points to every open connection of the room. *)
Theorem C2_undo_undo_redo_restores_latest_created
    ws room userId u1 u2 u3 sv l0 A l1 B l2 C l3 rest :
  let r := ws_room (sockets sv ws) in
  let state := room_of sv r in
  let t1 := on_message ws (msg_undo room userId) u1 sv in
  let t2 := on_message ws (msg_undo room userId) u2 t1.1 in
  let t3 := on_message ws (msg_redo room userId) u3 t2.1 in
  let tomb := set_removed (Some true) in
  let C' := set_removed (Some false) C in
  strokes state = l0 ++ A :: l1 ++ B :: l2 ++ C :: l3 →
  NoDup (stroke_id <$> strokes state) →
  stroke_userId A = userId → stroke_userId B = userId → stroke_userId C = userId →
  truthy (stroke_removed A) = false → truthy (stroke_removed B) = false →
  truthy (stroke_removed C) = false →
  Forall (λ s, ¬ removed_by userId s) l3 →
  userStacks state !! userId = Some (stroke_id C :: stroke_id B :: rest) →
  strokes (room_of t1.1 r) = l0 ++ A :: l1 ++ B :: l2 ++ tomb C :: l3
  ∧ t1.2 = broadcast sv r (ev_remove_stroke (stroke_id C)) None
  ∧ strokes (room_of t2.1 r) = l0 ++ A :: l1 ++ tomb B :: l2 ++ tomb C :: l3
  ∧ t2.2 = broadcast sv r (ev_remove_stroke (stroke_id B)) None
  ∧ strokes (room_of t3.1 r) = l0 ++ A :: l1 ++ tomb B :: l2 ++ C' :: l3
  ∧ userStacks (room_of t3.1 r) !! userId = Some (stroke_id C :: rest)
  ∧ t3.2 = broadcast sv r (ev_restore_stroke C') None
  ∧ stroke_points C' = stroke_points C
  ∧ (∀ c ev, (c, ev) ∈ t3.2 ↔
       ev = ev_restore_stroke C' ∧ c ∈ clients sv
       ∧ ws_readyState (sockets sv c) = OPEN ∧ ws_room (sockets sv c) = r).
Proof.
  intros r state t1 t2 t3 tomb C' Hsts Hnodup HA HB HC HlA HlB HlC Hl3 Hstack.
  (* first undo: C *)
  assert (Hsts1 : strokes state = (l0 ++ A :: l1 ++ B :: l2) ++ C :: l3).
  { rewrite Hsts. by simplify_list_eq. }
  assert (E1 : case_undo userId state
    = (mkRoomState ((l0 ++ A :: l1 ++ B :: l2) ++ tomb C :: l3)
         (<[userId := stroke_id B :: rest]> (userStacks state)),
       Some (stroke_id C))).
  { apply (case_undo_hit _ _ []); [done|by constructor|done|done|].
    apply NoDup_ids_before with l3. by rewrite <- Hsts1. }
  assert (T1 : t1 = (with_room sv r (case_undo userId state).1
                       (getRoom r (rooms sv)).2,
                     broadcast sv r (ev_remove_stroke (stroke_id C)) None)).
  { subst t1. rewrite on_message_undo. simpl. fold r state. by rewrite E1. }
  assert (R1 : room_of t1.1 r = (case_undo userId state).1).
  { rewrite T1. simpl. by rewrite room_of_with_room, decide_True. }
  rewrite E1 in R1. simpl in R1.
  (* second undo: B *)
  assert (E2 : case_undo userId (room_of t1.1 r)
    = (mkRoomState ((l0 ++ A :: l1) ++ tomb B :: l2 ++ tomb C :: l3)
         (<[userId := rest]> (userStacks (room_of t1.1 r))),
       Some (stroke_id B))).
  { apply (case_undo_hit _ _ []).
    - rewrite R1. simpl. by rewrite lookup_insert_eq.
    - by constructor.
    - rewrite R1. simpl. by simplify_list_eq.
    - done.
    - apply NoDup_ids_before with (l2 ++ C :: l3).
      rewrite Hsts in Hnodup. by simplify_list_eq. }
  assert (T2 : t2 = (with_room t1.1 r (case_undo userId (room_of t1.1 r)).1
                       (getRoom r (rooms t1.1)).2,
                     broadcast sv r (ev_remove_stroke (stroke_id B)) None)).
  { subst t2. rewrite on_message_undo. simpl.
    replace (ws_room (sockets t1.1 ws)) with r by (by rewrite T1).
    rewrite E2. simpl. f_equal. by rewrite T1. }
  assert (R2 : room_of t2.1 r = (case_undo userId (room_of t1.1 r)).1).
  { rewrite T2. simpl. by rewrite room_of_with_room, decide_True. }
  rewrite E2 in R2. simpl in R2.
  (* redo: the reverse scan meets C first *)
  assert (E3 : case_redo userId (room_of t2.1 r)
    = (mkRoomState ((l0 ++ A :: l1 ++ tomb B :: l2) ++ C' :: l3)
         (push_id userId (stroke_id C) (userStacks (room_of t2.1 r))),
       Some C')).
  { apply (case_redo_last _ _ _ (tomb C)).
    - rewrite R2. simpl. by simplify_list_eq.
    - done.
    - done. }
  assert (T3 : t3 = (with_room t2.1 r (case_redo userId (room_of t2.1 r)).1
                       (getRoom r (rooms t2.1)).2,
                     broadcast sv r (ev_restore_stroke C') None)).
  { subst t3. rewrite on_message_redo. simpl.
    replace (ws_room (sockets t2.1 ws)) with r by (by rewrite T2, T1).
    rewrite E3. simpl. f_equal. by rewrite T2, T1. }
  assert (R3 : room_of t3.1 r = (case_redo userId (room_of t2.1 r)).1).
  { rewrite T3. simpl. by rewrite room_of_with_room, decide_True. }
  rewrite E3 in R3. simpl in R3.
  split; [rewrite R1; simpl; by simplify_list_eq|].
  split; [by rewrite T1|].
  split; [rewrite R2; simpl; by simplify_list_eq|].
  split; [by rewrite T2|].
  split; [rewrite R3; simpl; by simplify_list_eq|].
  split.
  { rewrite R3. simpl. unfold push_id. rewrite lookup_insert_eq.
    rewrite R2. simpl. rewrite lookup_insert_eq. done. }
  split; [by rewrite T3|]. split; [done|].
  intros c ev. rewrite T3. simpl. apply elem_of_broadcast_all.
Qed.

(** ** clear *)

Lemma run_cons ws msg uuid inputs sv :
  run ((ws, msg, uuid) :: inputs) sv
  = ((run inputs (on_message ws msg uuid sv).1).1,
     (on_message ws msg uuid sv).2 ++ (run inputs (on_message ws msg uuid sv).1).2).
Proof.
  simpl. destruct (on_message ws msg uuid sv) as [sv1 out1]. simpl.
  by destruct (run inputs sv1).
Qed.

Lemma case_undo_empty_room userId : case_undo userId (@empty_room number) = (empty_room, None).
Proof. apply case_undo_nothing. left. apply lookup_empty. Qed.

Lemma case_redo_empty_room userId : case_redo userId (@empty_room number) = (empty_room, None).
Proof. by apply case_redo_none. Qed.

(** In a room without strokes and without stacks, [undo] and [redo] do
    nothing at all. *)
Lemma undo_in_empty_room ws room userId uuid sv :
  room_of sv (ws_room (sockets sv ws)) = empty_room →
  let res := on_message ws (msg_undo room userId) uuid sv in
  (∀ r', room_of res.1 r' = room_of sv r')
  ∧ sockets res.1 = sockets sv ∧ clients res.1 = clients sv ∧ res.2 = [].
Proof.
  intros Hempty res. subst res. rewrite on_message_undo. simpl.
  rewrite Hempty, case_undo_empty_room. simpl. split; [|done].
  intros r'. rewrite <- Hempty. apply room_of_with_room_same.
Qed.

Lemma redo_in_empty_room ws room userId uuid sv :
  room_of sv (ws_room (sockets sv ws)) = empty_room →
  let res := on_message ws (msg_redo room userId) uuid sv in
  (∀ r', room_of res.1 r' = room_of sv r')
  ∧ sockets res.1 = sockets sv ∧ clients res.1 = clients sv ∧ res.2 = [].
Proof.
  intros Hempty res. subst res. rewrite on_message_redo. simpl.
  rewrite Hempty, case_redo_empty_room. simpl. split; [|done].
  intros r'. rewrite <- Hempty. apply room_of_with_room_same.
Qed.

(** Only a [begin_stroke] puts a stroke into a room that has none. *)
Lemma empty_room_stays_empty ws msg uuid sv r :
  ¬ is_begin_stroke msg → room_of sv r = empty_room →
  room_of (on_message ws msg uuid sv).1 r = empty_room.
Proof.
  intros Hmsg Hempty.
  destruct msg as [room userId|room color size tool|room strokeId points
                  |room strokeId|room userId|room userId|room|room userId x y].
  - unfold on_message. rewrite (surjective_pairing (getRoom _ _)). simpl.
    rewrite <- Hempty, !room_of_lookup. apply getRoom_snd_lookup.
  - by destruct Hmsg.
  - rewrite on_message_add_points. simpl.
    destruct (case_add_points _ _ _) as [[[state' id] pts]|] eqn:E; simpl.
    + rewrite room_of_with_room. case_decide as Hr; [|done]. subst r.
      rewrite Hempty in E. discriminate E.
    + by rewrite room_of_getRoom.
  - unfold on_message. rewrite (surjective_pairing (getRoom _ _)). simpl.
    by rewrite room_of_getRoom.
  - destruct (decide (r = ws_room (sockets sv ws))) as [->|Hne].
    + etrans; [by apply undo_in_empty_room|done].
    + rewrite on_message_undo. simpl. by rewrite room_of_with_room, decide_False.
  - destruct (decide (r = ws_room (sockets sv ws))) as [->|Hne].
    + etrans; [by apply redo_in_empty_room|done].
    + rewrite on_message_redo. simpl. by rewrite room_of_with_room, decide_False.
  - rewrite on_message_clear. simpl. rewrite room_of_with_room.
    by case_decide.
  - unfold on_message. rewrite (surjective_pairing (getRoom _ _)). simpl.
    by rewrite room_of_getRoom.
Qed.

Lemma empty_room_stays_empty_run inputs sv r :
  Forall (λ i, ¬ is_begin_stroke i.1.2) inputs → room_of sv r = empty_room →
  room_of (run inputs sv).1 r = empty_room.
Proof.
  intros Hin. revert sv. induction Hin as [|[[ws msg] uuid] inputs Hmsg _ IH];
    intros sv Hempty; [done|].
  rewrite run_cons. simpl. apply IH. by apply empty_room_stays_empty.
Qed.

Lemma empty_room_stays_empty_listen inputs : ∀ sv sv2 (out2 : list (@Sent number)) r,
  listen inputs sv = Some (sv2, out2) →
  Forall (λ i, ¬ is_begin_stroke i.1.2) inputs → room_of sv r = empty_room →
  room_of sv2 r = empty_room.
Proof.
  induction inputs as [|[[ws msg] uuid] inputs IH]; intros sv sv2 out2 r Hl Hin Hempty.
  { simpl in Hl. by injection Hl as <- _. }
  simpl in Hl.
  destruct (listener ws msg uuid sv) as [sv1 out1| |] eqn:Hturn; try done.
  destruct (listen inputs sv1) as [[sv2' out2']|] eqn:Hrest; [|done].
  injection Hl as <- _. apply Forall_cons in Hin as [Hmsg Hin].
  eapply IH; [exact Hrest|done|].
  destruct (listener_returned _ _ _ _ _ _ Hturn) as [->|Hrooms].
  - by apply empty_room_stays_empty.
  - by rewrite (room_of_registry sv sv1).
Qed.

(** X26: [clear] from a connection in a room whose name is not inherited.
    The listener returns; in one turn it replaces the strokes of the room by
    the empty sequence and its user stacks by the empty mapping, touches no
    other room, and sends [clear] to every open connection of the room, the
    sender included.  As long as the turns that follow return and none of
    them is a [begin_stroke], the room stays empty, and an [undo] or a [redo]
    arriving in it for a user id that is not inherited returns, changes
    nothing and sends nothing. *)
Theorem X26_clear_empties_room_and_history
    ws room uuid sv inputs sv2 (out2 : list (@Sent number)) ws' room' userId uuid' :
  let r := ws_room (sockets sv ws) in
  let res := on_message ws (msg_clear room) uuid sv in
  let undo2 := on_message ws' (msg_undo room' userId) uuid' sv2 in
  let redo2 := on_message ws' (msg_redo room' userId) uuid' sv2 in
  plain r → plain userId →
  listen inputs res.1 = Some (sv2, out2) →
  Forall (λ i, ¬ is_begin_stroke i.1.2) inputs →
  ws_room (sockets sv2 ws') = r →
  listener ws (msg_clear room) uuid sv = returned res.1 (sent res.2)
  ∧ room_of res.1 r = mkRoomState [] ∅
  ∧ (∀ r', r' ≠ r → room_of res.1 r' = room_of sv r')
  ∧ res.2 = broadcast sv r ev_clear None
  ∧ (∀ c ev, (c, ev) ∈ res.2 ↔
       ev = ev_clear ∧ c ∈ clients sv
       ∧ ws_readyState (sockets sv c) = OPEN ∧ ws_room (sockets sv c) = r)
  ∧ room_of sv2 r = mkRoomState [] ∅
  ∧ (listener ws' (msg_undo room' userId) uuid' sv2 = returned undo2.1 []
     ∧ (∀ r', room_of undo2.1 r' = room_of sv2 r')
     ∧ sockets undo2.1 = sockets sv2 ∧ clients undo2.1 = clients sv2
     ∧ undo2.2 = [])
  ∧ (listener ws' (msg_redo room' userId) uuid' sv2 = returned redo2.1 []
     ∧ (∀ r', room_of redo2.1 r' = room_of sv2 r')
     ∧ sockets redo2.1 = sockets sv2 ∧ clients redo2.1 = clients sv2
     ∧ redo2.2 = []).
Proof.
  intros r res undo2 redo2 Hr Hu Hlisten Hinputs Hroom.
  assert (Hres : room_of res.1 r = empty_room).
  { subst res. rewrite on_message_clear. simpl.
    by rewrite room_of_with_room, decide_True. }
  assert (Hsv2 : room_of sv2 r = empty_room).
  { by apply (empty_room_stays_empty_listen inputs res.1 sv2 out2). }
  split; [by apply listener_plain|].
  split; [done|].
  split.
  { intros r' Hne. subst res. rewrite on_message_clear. simpl.
    by rewrite room_of_with_room, decide_False. }
  split; [subst res; by rewrite on_message_clear|].
  split.
  { intros c ev. subst res. rewrite on_message_clear. simpl.
    apply elem_of_broadcast_all. }
  split; [done|].
  rewrite <- Hroom in Hsv2, Hr.
  split.
  - destruct (undo_in_empty_room ws' room' userId uuid' sv2 Hsv2) as (? & ? & ? & Hout).
    fold undo2 in Hout |- *. split; [|done].
    rewrite (listener_plain ws' (msg_undo room' userId) uuid' sv2) by done.
    unfold as_returned. fold undo2. by rewrite Hout.
  - destruct (redo_in_empty_room ws' room' userId uuid' sv2 Hsv2) as (? & ? & ? & Hout).
    fold redo2 in Hout |- *. split; [|done].
    rewrite (listener_plain ws' (msg_redo room' userId) uuid' sv2) by done.
    unfold as_returned. fold redo2. by rewrite Hout.
Qed.

(** ** A stroke from begin to end *)

Lemma on_message_end_stroke ws room strokeId uuid sv :
  on_message ws (msg_end_stroke room strokeId) uuid sv =
  let r := ws_room (sockets sv ws) in
  (mkServer (getRoom r (rooms sv)).2 (sockets sv) (clients sv),
   broadcast sv r (ev_end_stroke strokeId) (Some ws)).
Proof.
  unfold on_message. by rewrite (surjective_pairing (getRoom _ _)).
Qed.

Lemma points_appended ws uuid tail : ∀ sv old userId color size tool pts,
  let r := ws_room (sockets sv ws) in
  let sv' := (run ((λ m, (ws, m.1, m.2)) <$> tail) sv).1 in
  strokes (room_of sv r) = old ++ [mkStroke uuid userId color size tool pts None] →
  Forall (λ s', stroke_id s' ≠ uuid) old →
  Forall (λ m, for_stroke uuid m.1) tail →
  strokes (room_of sv' r)
  = old ++ [mkStroke uuid userId color size tool
              (pts ++ concat ((λ m, take 200 (payload m.1)) <$> tail)) None]
  ∧ userStacks (room_of sv' r) = userStacks (room_of sv r).
Proof.
  induction tail as [|[msg u] tail IH]; intros sv old userId color size tool pts r sv'
    Hsts Hold Htail.
  { subst sv'. simpl. by rewrite app_nil_r. }
  apply Forall_cons in Htail as [Hmsg Htail]. simpl in Hmsg.
  subst sv'. rewrite fmap_cons, run_cons. simpl.
  assert (Hlive : live_with_id uuid (mkStroke uuid userId color size tool pts None))
    by done.
  assert (Hmiss : Forall (λ s', ¬ live_with_id uuid s') old).
  { eapply Forall_impl; [exact Hold|]. by intros s' Hne [Hid _]. }
  destruct msg as [| |room strokeId points|room strokeId| | | |]; try done;
    simpl in Hmsg; subst strokeId.
  - rewrite on_message_add_points. simpl. fold r.
    rewrite (case_add_points_hit _ _ _ _ _ _ Hsts Hlive Hmiss). simpl.
    set (sv1 := with_room sv r _ _).
    assert (Hr : ws_room (sockets sv1 ws) = r) by done.
    destruct (IH sv1 old userId color size tool (pts ++ take 200 points))
      as [IH1 IH2]; [|done|done|].
    { rewrite Hr. subst sv1. by rewrite room_of_with_room, decide_True. }
    rewrite Hr in IH1, IH2. rewrite IH1, IH2, <- app_assoc. split; [done|].
    subst sv1. by rewrite room_of_with_room, decide_True.
  - rewrite on_message_end_stroke. simpl. fold r.
    set (sv1 := mkServer _ _ _).
    assert (Hr : ws_room (sockets sv1 ws) = r) by done.
    assert (Hsame : room_of sv1 r = room_of sv r) by apply room_of_getRoom.
    destruct (IH sv1 old userId color size tool pts) as [IH1 IH2]; [|done|done|].
    { by rewrite Hr, Hsame. }
    rewrite Hr in IH1, IH2. by rewrite IH1, IH2, Hsame.
Qed.

(** C1, as the code has it: after a [begin_stroke] of one connection followed
    by any interleaving of [add_points] and [end_stroke] for the stroke it
    created, the point sequence of that stroke is the concatenation, in the
    order received, of the batches the authority kept: the first 200 points
    of every [add_points] payload. *)
Theorem C1_points_are_concatenated_truncated_payloads
    ws room color size tool uuid sv (tail : list (Msg * string)) :
  let r := ws_room (sockets sv ws) in
  let inputs := (ws, msg_begin_stroke room color size tool, uuid)
                :: ((λ m, (ws, m.1, m.2)) <$> tail) in
  (∀ s, s ∈ strokes (room_of sv r) → stroke_id s ≠ uuid) →
  Forall (λ m, for_stroke uuid m.1) tail →
  strokes (room_of (run inputs sv).1 r)
  = strokes (room_of sv r)
    ++ [mkStroke uuid (ws_userId (sockets sv ws)) color size tool
          (concat ((λ m, take 200 (payload m.1)) <$> tail)) None].
Proof.
  intros r inputs Hfresh Htail. subst inputs.
  rewrite run_cons, on_message_begin_stroke. simpl. fold r.
  set (sv1 := with_room sv r _ _).
  assert (Hr : ws_room (sockets sv1 ws) = r) by done.
  destruct (points_appended ws uuid tail sv1 (strokes (room_of sv r))
              (ws_userId (sockets sv ws)) color size tool []) as [H _];
    [| |done|].
  - rewrite Hr. subst sv1. by rewrite room_of_with_room, decide_True.
  - by apply Forall_forall.
  - by rewrite Hr in H.
Qed.

(** ** begin_stroke: who receives the announcement, and how often *)

Lemma copies_app c out1 out2 : copies c (out1 ++ out2) = copies c out1 + copies c out2.
Proof. unfold copies. by rewrite filter_app, length_app. Qed.

Lemma copies_fan_out (P : nat → Prop) {Pdec : ∀ x, Decision (P x)}
    (data : @Event number) (l : list nat) c :
  NoDup l →
  copies c ((λ client, (client, data)) <$> filter P l)
  = if decide (c ∈ l ∧ P c) then 1 else 0.
Proof.
  unfold copies. intros Hnodup. induction Hnodup as [|x l Hx _ IH].
  { rewrite decide_False; [done|]. intros [Hin _]. by apply elem_of_nil in Hin. }
  rewrite filter_cons. destruct (decide (P x)) as [HPx|HPx].
  - rewrite fmap_cons, filter_cons. cbn [fst]. destruct (decide (x = c)) as [->|Hne].
    + etrans; [exact (f_equal S IH)|]. rewrite decide_False by (by intros [? _]).
      rewrite decide_True; [done|]. split; [left|done].
    + etrans; [exact IH|]. apply decide_ext. rewrite elem_of_cons.
      split; [intros [? ?]; by auto|]. intros [[->|?] ?]; done.
  - etrans; [exact IH|]. apply decide_ext. rewrite elem_of_cons.
    split; [intros [? ?]; by auto|]. intros [[->|?] ?]; done.
Qed.

Lemma copies_broadcast sv room data except c :
  NoDup (clients sv) →
  copies c (broadcast sv room data except)
  = if decide (c ∈ clients sv ∧ is_recipient sv room except c) then 1 else 0.
Proof. apply copies_fan_out. Qed.

(** The replica appends a mirror entry for every [begin_stroke] it receives,
    whatever its state. *)
Lemma client_begin_stroke_appends (stroke : @Stroke number) cl :
  ∃ s1, client_strokes (client_on_message (ev_begin_stroke stroke) cl).1
        = client_strokes cl ++ [s1]
      ∧ stroke_id s1 = stroke_id stroke.
Proof.
  unfold client_on_message. case_decide.
  - destruct (pendingPoints cl); simpl; eauto.
  - simpl; eauto.
Qed.

(** X29: a [begin_stroke] request of an open connection whose room name and
    user id are not inherited.  The listener returns, and every frame sent is
    the [begin_stroke] event of the new stroke; the initiator gets it twice
    (once from the room broadcast, which excludes nobody, and once from the
    direct send), every other open connection of the room gets it once, and
    nobody else gets it.  A replica that handles the two copies appends two
    mirror entries with the same id to its stroke list. *)
Theorem X29_begin_stroke_reaches_initiator_twice ws room color size tool uuid sv :
  let r := ws_room (sockets sv ws) in
  let res := on_message ws (msg_begin_stroke room color size tool) uuid sv in
  let s := mkStroke uuid (ws_userId (sockets sv ws)) color size tool [] None in
  plain r → plain (ws_userId (sockets sv ws)) →
  NoDup (clients sv) → ws ∈ clients sv → ws_readyState (sockets sv ws) = OPEN →
  listener ws (msg_begin_stroke room color size tool) uuid sv
  = returned res.1 (sent res.2)
  ∧ (∀ c ev, (c, ev) ∈ res.2 → ev = ev_begin_stroke s)
  ∧ res.2 = broadcast sv r (ev_begin_stroke s) None ++ [(ws, ev_begin_stroke s)]
  ∧ copies ws (broadcast sv r (ev_begin_stroke s) None) = 1
  ∧ copies ws res.2 = 2
  ∧ (∀ c, c ≠ ws → c ∈ clients sv → ws_readyState (sockets sv c) = OPEN →
          ws_room (sockets sv c) = r → copies c res.2 = 1)
  ∧ (∀ c, c ≠ ws →
          ¬ (c ∈ clients sv ∧ ws_readyState (sockets sv c) = OPEN
             ∧ ws_room (sockets sv c) = r) → copies c res.2 = 0)
  ∧ (∀ cl : Client,
       let cl1 := (client_on_message (ev_begin_stroke s) cl).1 in
       let cl2 := (client_on_message (ev_begin_stroke s) cl1).1 in
       ∃ s1 s2, client_strokes cl1 = client_strokes cl ++ [s1]
              ∧ client_strokes cl2 = client_strokes cl ++ [s1; s2]
              ∧ stroke_id s1 = uuid ∧ stroke_id s2 = uuid).
Proof.
  intros r res s Hr Hu Hnodup Hin Hopen.
  split; [by apply listener_plain|]. subst res.
  assert (Hclient : ∀ cl : Client,
    ∃ s1 s2,
      client_strokes (client_on_message (ev_begin_stroke s) cl).1
      = client_strokes cl ++ [s1]
      ∧ client_strokes (client_on_message (ev_begin_stroke s)
                          (client_on_message (ev_begin_stroke s) cl).1).1
        = client_strokes cl ++ [s1; s2]
      ∧ stroke_id s1 = uuid ∧ stroke_id s2 = uuid).
  { intros cl.
    destruct (client_begin_stroke_appends s cl) as (s1 & E1 & Hid1).
    destruct (client_begin_stroke_appends s
                (client_on_message (ev_begin_stroke s) cl).1) as (s2 & E2 & Hid2).
    exists s1, s2. rewrite E2, E1, <- app_assoc. done. }
  rewrite on_message_begin_stroke. simpl. fold r s.
  assert (Hsend : send sv ws (ev_begin_stroke s) = [(ws, ev_begin_stroke s)]).
  { unfold send. by rewrite decide_True. }
  rewrite Hsend.
  split.
  { intros c ev [H|H]%elem_of_app.
    - by apply elem_of_broadcast in H as [? _].
    - apply list_elem_of_singleton in H. congruence. }
  split; [done|].
  assert (Hone : copies ws [(ws, ev_begin_stroke s)] = 1).
  { unfold copies. by rewrite filter_cons, decide_True. }
  assert (Hbc : copies ws (broadcast sv r (ev_begin_stroke s) None) = 1).
  { rewrite copies_broadcast by done. rewrite decide_True; [done|].
    by repeat split. }
  split; [done|].
  split; [by rewrite copies_app, Hbc, Hone|].
  split.
  { intros c Hne Hc Hcopen Hcroom. rewrite copies_app, copies_broadcast by done.
    rewrite decide_True by (by repeat split).
    unfold copies. rewrite filter_cons, decide_False by (simpl; congruence).
    done. }
  split.
  { intros c Hne Hnot. rewrite copies_app, copies_broadcast by done.
    rewrite decide_False.
    - unfold copies. by rewrite filter_cons, decide_False by (simpl; congruence).
    - intros (? & ? & ? & _). apply Hnot. by repeat split. }
  exact Hclient.
Qed.

(** ** Strokes and undo stacks agree *)

Section agree.
Implicit Types (keys : list Key) (stacks : gmap string (list string)).

Lemma key_unique keys id u b u' b' :
  NoDup (key_id <$> keys) → (id, u, b) ∈ keys → (id, u', b') ∈ keys →
  u = u' ∧ b = b'.
Proof.
  intros Hnodup [i Hi]%list_elem_of_lookup [j Hj]%list_elem_of_lookup.
  assert (i = j) as ->.
  { apply (NoDup_lookup _ i j id Hnodup); rewrite list_lookup_fmap.
    - by rewrite Hi.
    - by rewrite Hj. }
  rewrite Hi in Hj. by injection Hj.
Qed.

Lemma key_elsewhere (k1 k2 : list Key) (k k' : Key) :
  NoDup (key_id <$> (k1 ++ k :: k2)) → k' ∈ k1 ++ k :: k2 →
  key_id k' ≠ key_id k → k' ∈ k1 ++ k2.
Proof.
  intros _ Hin Hne. rewrite elem_of_app, elem_of_cons in Hin.
  rewrite elem_of_app. destruct Hin as [?|[->|?]]; tauto.
Qed.

Lemma elem_of_middle_swap (k1 k2 : list Key) (k k' : Key) :
  k' ∈ k1 ++ k2 → k' ∈ k1 ++ k :: k2.
Proof. rewrite !elem_of_app, elem_of_cons. tauto. Qed.

Lemma key_ids_middle (k1 k2 : list Key) id u b b' :
  key_id <$> (k1 ++ (id, u, b) :: k2) = key_id <$> (k1 ++ (id, u, b') :: k2).
Proof. by rewrite !fmap_app, !fmap_cons. Qed.

Lemma key_not_elsewhere (k1 k2 : list Key) id u b u' b' :
  NoDup (key_id <$> (k1 ++ (id, u, b) :: k2)) → (id, u', b') ∉ k1 ++ k2.
Proof.
  rewrite fmap_app, fmap_cons. intros Hnodup Hin.
  apply NoDup_app in Hnodup as (_ & Hdisj & [Hk2 _]%NoDup_cons).
  apply elem_of_app in Hin as [Hin|Hin].
  - apply (Hdisj id); [|left]. by apply (list_elem_of_fmap_2' key_id _ _ _ Hin).
  - apply Hk2. by apply (list_elem_of_fmap_2' key_id _ _ _ Hin).
Qed.

Lemma agree_empty : agree [] ∅.
Proof.
  split; [constructor|]. split; [|split].
  - intros u stack. by rewrite lookup_empty.
  - intros u stack id. by rewrite lookup_empty.
  - intros id u Hin. by apply elem_of_nil in Hin.
Qed.

Lemma agree_begin keys stacks id u :
  agree keys stacks → id ∉ key_id <$> keys →
  agree (keys ++ [(id, u, false)]) (push_id u id stacks).
Proof.
  intros (Hids & Hnodup & Hstack & Hlive) Hfresh. unfold push_id.
  assert (Hnew : id ∉ default [] (stacks !! u)).
  { intros Hin. destruct (stacks !! u) as [stack|] eqn:E; simpl in Hin.
    - apply Hfresh. apply (list_elem_of_fmap_2' key_id _ _ _ (Hstack _ _ _ E Hin)).
      done.
    - by apply elem_of_nil in Hin. }
  split; [|split; [|split]].
  - rewrite fmap_app. apply NoDup_app. split; [done|]. split.
    + intros x Hx [->|Hnil%elem_of_nil]%elem_of_cons; [|done]. by apply Hfresh.
    + apply NoDup_singleton.
  - intros u' stack. rewrite lookup_insert. case_decide as Hu.
    + intros [= <-]. apply NoDup_cons. split; [done|].
      destruct (stacks !! u) eqn:E; simpl; [by eapply Hnodup|constructor].
    + apply Hnodup.
  - intros u' stack id'. rewrite lookup_insert, elem_of_app. case_decide as Hu.
    + subst u'. intros [= <-] [->|Hin]%elem_of_cons.
      * right. left.
      * left. destruct (stacks !! u) eqn:E; simpl in Hin.
        -- by eapply Hstack.
        -- by apply elem_of_nil in Hin.
    + intros E Hin. left. by eapply Hstack.
  - intros id' u' [Hin|Hin]%elem_of_app.
    + rewrite lookup_insert. case_decide as Hu.
      * subst u'. simpl. right. by apply Hlive.
      * by apply Hlive.
    + apply list_elem_of_singleton in Hin as [= -> ->].
      rewrite lookup_insert_eq. simpl. left.
Qed.

Lemma agree_undo (k1 k2 : list Key) stacks id u0 u rest :
  agree (k1 ++ (id, u0, false) :: k2) stacks →
  stacks !! u = Some (id :: rest) →
  agree (k1 ++ (id, u0, true) :: k2) (<[u := rest]> stacks).
Proof.
  intros (Hids & Hnodup & Hstack & Hlive) Hu.
  assert (u0 = u) as ->.
  { assert (Hin : (id, u, false) ∈ k1 ++ (id, u0, false) :: k2).
    { eapply Hstack; [exact Hu|left]. }
    destruct (key_unique _ id u0 false u false Hids) as [? _]; [|done|done].
    rewrite elem_of_app, elem_of_cons. tauto. }
  pose proof (Hnodup _ _ Hu) as [Hid Hrest]%NoDup_cons.
  split; [|split; [|split]].
  - by rewrite (key_ids_middle _ _ _ _ true false).
  - intros u' stack. rewrite lookup_insert. case_decide as Hu'.
    + by intros [= <-].
    + apply Hnodup.
  - intros u' stack id'. rewrite lookup_insert. case_decide as Hu'.
    + subst u'. intros [= <-] Hin.
      apply elem_of_middle_swap.
      apply (key_elsewhere _ _ (id, u, false)); [done| |].
      * eapply Hstack; [exact Hu|by right].
      * unfold key_id. simpl. by intros ->.
    + intros E Hin.
      apply elem_of_middle_swap.
      apply (key_elsewhere _ _ (id, u, false)); [done|by eapply Hstack|].
      unfold key_id. simpl. intros ->.
      destruct (key_unique _ id u' false u false Hids); [by eapply Hstack| |done].
      rewrite elem_of_app, elem_of_cons. tauto.
  - intros id' u' Hin.
    assert (Hin' : (id', u', false) ∈ k1 ++ k2).
    { rewrite elem_of_app, elem_of_cons in Hin. rewrite elem_of_app.
      destruct Hin as [?|[[=]|?]]; tauto. }
    assert (id' ≠ id).
    { intros ->. by eapply key_not_elsewhere. }
    assert (Hold : id' ∈ default [] (stacks !! u')).
    { apply Hlive. by apply elem_of_middle_swap. }
    rewrite lookup_insert. case_decide as Hu'; [|done].
    subst u'. simpl. rewrite Hu in Hold. simpl in Hold.
    apply elem_of_cons in Hold as [?|?]; done.
Qed.

Lemma agree_redo (k1 k2 : list Key) stacks id u :
  agree (k1 ++ (id, u, true) :: k2) stacks →
  agree (k1 ++ (id, u, false) :: k2) (push_id u id stacks).
Proof.
  intros (Hids & Hnodup & Hstack & Hlive). unfold push_id.
  assert (Hmid : (id, u, true) ∈ k1 ++ (id, u, true) :: k2).
  { rewrite elem_of_app, elem_of_cons. tauto. }
  assert (Hnew : id ∉ default [] (stacks !! u)).
  { intros Hin. destruct (stacks !! u) as [stack|] eqn:E; simpl in Hin.
    - by destruct (key_unique _ id u false u true Hids (Hstack _ _ _ E Hin) Hmid).
    - by apply elem_of_nil in Hin. }
  split; [|split; [|split]].
  - by rewrite (key_ids_middle _ _ _ _ false true).
  - intros u' stack. rewrite lookup_insert. case_decide as Hu.
    + intros [= <-]. apply NoDup_cons. split; [done|].
      destruct (stacks !! u) eqn:E; simpl; [by eapply Hnodup|constructor].
    + apply Hnodup.
  - intros u' stack id'. rewrite lookup_insert. case_decide as Hu.
    + subst u'. intros [= <-] [->|Hin]%elem_of_cons.
      * rewrite elem_of_app, elem_of_cons. tauto.
      * destruct (stacks !! u) as [stack|] eqn:E; simpl in Hin;
          [|by apply elem_of_nil in Hin].
        apply elem_of_middle_swap.
        apply (key_elsewhere _ _ (id, u, true)); [done|by eapply Hstack|].
        unfold key_id. simpl. intros ->. by apply Hnew.
    + intros E Hin.
      apply elem_of_middle_swap.
      apply (key_elsewhere _ _ (id, u, true)); [done|by eapply Hstack|].
      unfold key_id. simpl. intros ->.
      by destruct (key_unique _ id u' false u true Hids (Hstack _ _ _ E Hin) Hmid).
  - intros id' u' Hin. rewrite elem_of_app, elem_of_cons in Hin.
    rewrite lookup_insert.
    destruct (decide (id' = id)) as [->|Hne].
    + assert (u' = u) as ->.
      { destruct Hin as [Hin|[[=]|Hin]]; [|done|];
          exfalso; eapply (key_not_elsewhere k1 k2 id u true u' false Hids);
          rewrite elem_of_app; tauto. }
      rewrite decide_True by done. simpl. left.
    + assert (Hold : id' ∈ default [] (stacks !! u')).
      { apply Hlive. rewrite elem_of_app, elem_of_cons.
        destruct Hin as [?|[[=]|?]]; tauto. }
      case_decide as Hu; [|done]. subst u'. simpl. by right.
Qed.
End agree.

Lemma consistent_empty_room : consistent (@empty_room number).
Proof. apply agree_empty. Qed.

Lemma consistent_begin_stroke id userId color size tool state :
  consistent state →
  (∀ s, s ∈ strokes state → stroke_id s ≠ id) →
  consistent (case_begin_stroke id userId color size tool state).1.
Proof.
  intros Hok Hfresh. unfold consistent, case_begin_stroke. simpl.
  rewrite fmap_app. apply agree_begin; [done|].
  rewrite <- list_fmap_compose.
  intros (s & Hid & Hin)%list_elem_of_fmap. by apply (Hfresh s).
Qed.

Lemma consistent_add_points strokeId points state state' id pts :
  consistent state →
  case_add_points strokeId points state = Some (state', id, pts) →
  consistent state'.
Proof.
  unfold consistent, case_add_points. intros Hok.
  destruct (list_find _ _) as [[i s]|] eqn:E; [|done]. intros [= <- _ _].
  apply list_find_split in E as (l1 & l2 & Hsts & -> & _ & _). simpl.
  rewrite Hsts, insert_middle. rewrite Hsts in Hok.
  by rewrite fmap_app, fmap_cons in *.
Qed.

Lemma consistent_undo userId state :
  consistent state → consistent (case_undo userId state).1.
Proof.
  intros Hok. destruct (userStacks state !! userId) as [[|id rest]|] eqn:Hstack.
  - by rewrite case_undo_nothing by (by right).
  - pose proof Hok as (_ & _ & Hon & _).
    assert (Hkey : (id, userId, false) ∈ stroke_key <$> strokes state).
    { eapply Hon; [exact Hstack|left]. }
    apply list_elem_of_fmap in Hkey as (s & Hs & Hin).
    injection Hs as Hid Hauthor Hlive.
    destruct (list_find_elem_of (live_with_id id) _ s Hin) as [[i s0] Hfind];
      [done|].
    apply list_find_split in Hfind as (l1 & l2 & Hsts & -> & [Hid0 Hlive0] & Hl1).
    rewrite (case_undo_hit _ _ [] id rest l1 s0 l2) by first [done|by constructor].
    unfold consistent in *. simpl. rewrite Hsts in Hok.
    rewrite fmap_app, fmap_cons in *. unfold stroke_key at 2. simpl.
    unfold stroke_key at 2 in Hok. rewrite Hid0, Hlive0 in Hok. rewrite Hid0.
    by apply agree_undo.
  - by rewrite case_undo_nothing by (by left).
Qed.

Lemma consistent_redo userId state :
  consistent state → consistent (case_redo userId state).1.
Proof.
  intros Hok.
  destruct (list_find (removed_by userId) (reverse (strokes state)))
    as [[idx s]|] eqn:Hfind.
  - apply list_find_split in Hfind as (p1 & p2 & Hrev & _ & [Hauthor Hgone] & Hp1).
    assert (Hsts : strokes state = reverse p2 ++ s :: reverse p1).
    { rewrite <- (reverse_involutive (strokes state)), Hrev.
      by rewrite reverse_app, reverse_cons, <- app_assoc. }
    rewrite (case_redo_last _ _ _ _ _ Hsts); [|done|by apply Forall_reverse].
    unfold consistent in *. simpl. rewrite Hsts in Hok.
    rewrite fmap_app, fmap_cons in *. unfold stroke_key at 2. simpl.
    unfold stroke_key at 2 in Hok. rewrite Hauthor, Hgone in Hok. rewrite Hauthor.
    by apply agree_redo.
  - unfold case_redo. by rewrite Hfind.
Qed.

Lemma on_message_join_room ws room userId uuid sv :
  on_message ws (msg_join_room room userId) uuid sv =
  let sock := sockets sv ws in
  let sock' := mkSocket room (if decide (userId = EmptyString) then ws_userId sock else userId)
                 (ws_readyState sock) in
  let sv' := mkServer (getRoom room (rooms sv)).2 (<[ws := sock']> (sockets sv))
               (clients sv) in
  (sv', send sv' ws (ev_room_state (room_of sv room))).
Proof.
  unfold on_message, room_of. by rewrite (surjective_pairing (getRoom _ _)).
Qed.

Lemma on_message_cursor ws room userId x y uuid sv :
  on_message ws (msg_cursor room userId x y) uuid sv =
  let r := ws_room (sockets sv ws) in
  (mkServer (getRoom r (rooms sv)).2 (sockets sv) (clients sv),
   broadcast sv r (ev_cursor userId x y) (Some ws)).
Proof.
  unfold on_message. by rewrite (surjective_pairing (getRoom _ _)).
Qed.

(** One turn of the handler keeps every room consistent. *)
Lemma consistent_on_message ws msg uuid sv :
  fresh_uuid sv ws msg uuid →
  (∀ r, consistent (room_of sv r)) →
  ∀ r, consistent (room_of (on_message ws msg uuid sv).1 r).
Proof.
  intros Hfresh Hok r.
  destruct msg as [room userId|room color size tool|room strokeId points
                  |room strokeId|room userId|room userId|room|room userId x y].
  - rewrite on_message_join_room. simpl.
    rewrite room_of_lookup. simpl. rewrite getRoom_snd_lookup, <- room_of_lookup.
    apply Hok.
  - rewrite on_message_begin_stroke. simpl. rewrite room_of_with_room.
    case_decide; [|apply Hok].
    apply consistent_begin_stroke; [apply Hok|]. by apply Hfresh.
  - rewrite on_message_add_points. simpl.
    destruct (case_add_points _ _ _) as [[[state' id] pts]|] eqn:E; simpl.
    + rewrite room_of_with_room. case_decide; [|apply Hok].
      eapply consistent_add_points; [apply Hok|exact E].
    + rewrite room_of_getRoom. apply Hok.
  - rewrite on_message_end_stroke. simpl. rewrite room_of_getRoom. apply Hok.
  - rewrite on_message_undo. simpl. rewrite room_of_with_room.
    case_decide; [|apply Hok]. apply consistent_undo, Hok.
  - rewrite on_message_redo. simpl. rewrite room_of_with_room.
    case_decide; [|apply Hok]. apply consistent_redo, Hok.
  - rewrite on_message_clear. simpl. rewrite room_of_with_room.
    case_decide; [|apply Hok]. apply consistent_empty_room.
  - rewrite on_message_cursor. simpl. rewrite room_of_getRoom. apply Hok.
Qed.

Lemma reachable_consistent sv : reachable sv → ∀ r, consistent (room_of sv r).
Proof.
  induction 1 as [sv Hstart|sv ws msg uuid _ IH Hfresh|sv sv' _ IH Hrooms].
  - intros r. rewrite room_of_lookup, Hstart, lookup_empty.
    apply consistent_empty_room.
  - by apply consistent_on_message.
  - intros r. rewrite (room_of_registry sv sv') by done. apply IH.
Qed.



Lemma stack_of_live state u id :
  consistent state → id ∈ stack_of state u →
  ∃ s, s ∈ strokes state ∧ stroke_id s = id ∧ stroke_userId s = u
       ∧ truthy (stroke_removed s) = false.
Proof.
  intros (_ & _ & Hon & _). unfold stack_of.
  destruct (userStacks state !! u) as [stack|] eqn:E; simpl;
    [|by intros ?%elem_of_nil].
  intros Hin. apply (Hon _ _ _ E) in Hin.
  apply list_elem_of_fmap in Hin as (s & [= Hid Hauthor Hlive] & Hin). eauto.
Qed.


(** X25: [undo] for a user id that is not inherited, from a connection in a
    room whose name is not inherited.  The listener returns.  It pops the
    user's stack until a popped id names a stroke that exists and is not
    tombstoned, tombstones exactly that stroke (the first such stroke of the
    array), sends [remove_stroke] to every open connection of the room, the
    sender included, and stops; the stale ids popped on the way cause no
    frame.  When every id of the stack is stale no stroke changes and no
    frame is sent.  In the states the authority is in as long as every turn
    has returned no stale id is on a stack, and then the whole room state is
    unchanged. *)
Theorem X25_undo_pops_until_removable ws room userId uuid sv stale :
  let r := ws_room (sockets sv ws) in
  let state := room_of sv r in
  let res := on_message ws (msg_undo room userId) uuid sv in
  let state' := room_of res.1 r in
  plain r → plain userId →
  Forall (stale_in (strokes state)) stale →
  listener ws (msg_undo room userId) uuid sv = returned res.1 (sent res.2)
  ∧ (∀ r', r' ≠ r → room_of res.1 r' = room_of sv r')
  ∧ sockets res.1 = sockets sv
  ∧ clients res.1 = clients sv
  ∧ (∀ id rest l1 s l2,
       userStacks state !! userId = Some (stale ++ id :: rest) →
       strokes state = l1 ++ s :: l2 → live_with_id id s →
       Forall (λ s', ¬ live_with_id id s') l1 →
       strokes state' = l1 ++ set_removed (Some true) s :: l2
       ∧ userStacks state' = <[userId := rest]> (userStacks state)
       ∧ res.2 = broadcast sv r (ev_remove_stroke id) None
       ∧ (∀ c ev, (c, ev) ∈ res.2 ↔
            ev = ev_remove_stroke id ∧ c ∈ clients sv
            ∧ ws_readyState (sockets sv c) = OPEN ∧ ws_room (sockets sv c) = r))
  ∧ (userStacks state !! userId = Some stale →
       strokes state' = strokes state ∧ res.2 = []
       ∧ (reached sv → state' = state))
  ∧ (userStacks state !! userId = None ∨ userStacks state !! userId = Some [] →
       state' = state ∧ res.2 = []).
Proof.
  intros r state res state' Hr Hu Hstale.
  split; [by apply listener_plain|]. subst res state'.
  rewrite on_message_undo. simpl. fold r state.
  split; [intros r' Hne; rewrite room_of_with_room; by rewrite decide_False|].
  split; [done|]. split; [done|].
  rewrite room_of_with_room, decide_True by done.
  split; [|split].
  - intros id rest l1 s l2 Hstack Hsts Hs Hl1.
    rewrite (case_undo_hit _ _ _ _ _ _ _ _ Hstack Hstale Hsts Hs Hl1). simpl.
    split; [done|]. split; [done|]. split; [done|].
    intros c ev. apply elem_of_broadcast_all.
  - intros Hstack. rewrite (case_undo_exhausted _ _ _ Hstack Hstale). simpl.
    split; [done|]. split; [done|]. intros Hreached.
    assert (Hok : consistent state).
    { by apply reachable_consistent, reached_reachable. }
    destruct stale as [|id stale].
    + destruct state as [sts stacks]. simpl in *. by rewrite insert_id.
    + exfalso. apply Forall_cons in Hstale as [Hid _].
      destruct (stack_of_live state userId id Hok) as (s & Hs & Hsid & _ & Hlive).
      { unfold stack_of. rewrite Hstack. left. }
      unfold stale_in in Hid. rewrite Forall_forall in Hid. by apply (Hid s Hs).
  - intros Hstack. by rewrite (case_undo_nothing _ _ Hstack).
Qed.

End Properties.

(** * Further properties of the authority and of the replica *)

Section Coverage.

Context {number : Type}.

Implicit Types (sv : @Server number) (state : @RoomState number)
  (s : @Stroke number) (sts : list (@Stroke number)) (msg : @Msg number)
  (out : list (@Frame number)) (rs : gmap string (@RoomState number))
  (cl : @Client number) (ev : @Event number).

(** ** join_room *)

Lemma elem_of_send sv ws data c ev :
  (c, ev) ∈ send sv ws data
  ↔ c = ws ∧ ev = data ∧ ws_readyState (sockets sv ws) = OPEN.
Proof.
  unfold send. case_decide as Hopen.
  - rewrite list_elem_of_singleton. split; [by intros [= -> ->]|by intros (-> & -> & _)].
  - rewrite elem_of_nil. split; [done|by intros (_ & _ & ?)].
Qed.

Lemma deliver_app c out1 out2 cl :
  deliver c (out1 ++ out2) cl
  = ((deliver c out2 (deliver c out1 cl).1).1,
     (deliver c out1 cl).2 ++ (deliver c out2 (deliver c out1 cl).1).2).
Proof.
  revert cl. induction out1 as [|[c' ev] out1 IH]; intros cl; simpl.
  { by destruct (deliver c out2 cl). }
  case_decide; [|apply IH].
  destruct (client_on_message ev cl) as [cl1 m1]. rewrite IH.
  destruct (deliver c out1 cl1) as [cl2 m2]. simpl.
  by rewrite app_assoc.
Qed.

Lemma join_room_turn ws room userId uuid sv :
  let res := on_message ws (msg_join_room room userId) uuid sv in
  (∀ r, room_of res.1 r = room_of sv r)
  ∧ (∀ c, sockets res.1 c
          = if decide (c = ws)
            then mkSocket room
                   (if decide (userId = EmptyString)
                    then ws_userId (sockets sv ws) else userId)
                   (ws_readyState (sockets sv ws))
            else sockets sv c).
Proof.
  intros res. subst res. rewrite on_message_join_room. simpl. split.
  - intros r. rewrite room_of_lookup. simpl.
    by rewrite getRoom_snd_lookup, <- room_of_lookup.
  - intros c. unfold insert, fn_insert. by repeat case_decide; subst.
Qed.

(** X1: a [join_room] for a room whose name is not inherited.  The listener
    returns; it changes the state of no room and the fields of no socket but
    the sender's, which is now in [room], under the [userId] of the message
    unless that is empty.  The only frame is the snapshot of the room joined,
    for the sender alone, if its socket is open; a replica that handles the
    frame, its numbers having come through the serialisation as they were,
    mirrors the strokes of that room. *)
Theorem X1_join_room_sends_the_snapshot_to_the_joiner ws room userId uuid sv cl rt :
  let res := on_message ws (msg_join_room room userId) uuid sv in
  let open := bool_decide (ws_readyState (sockets sv ws) = OPEN) in
  plain room →
  on_the_wire rt res.2 = res.2 →
  listener ws (msg_join_room room userId) uuid sv = returned res.1 (sent res.2)
  ∧ (∀ r, room_of res.1 r = room_of sv r)
  ∧ clients res.1 = clients sv
  ∧ (∀ c, sockets res.1 c
          = if decide (c = ws)
            then mkSocket room
                   (if decide (userId = EmptyString)
                    then ws_userId (sockets sv ws) else userId)
                   (ws_readyState (sockets sv ws))
            else sockets sv c)
  ∧ res.2 = (if open then [(ws, ev_room_state (room_of sv room))] else [])
  ∧ client_strokes (deliver ws (on_the_wire rt res.2) cl).1
    = (if open then strokes (room_of sv room) else client_strokes cl).
Proof.
  intros res open Hplain Hwire. rewrite Hwire. clear Hwire.
  split; [by apply listener_plain|].
  destruct (join_room_turn ws room userId uuid sv) as [Hrooms Hsock].
  split; [done|]. subst res open. rewrite on_message_join_room. simpl.
  split; [done|]. split.
  { intros c. unfold insert, fn_insert. by repeat case_decide; subst. }
  unfold send. simpl. rewrite fn_lookup_insert. simpl.
  case_bool_decide as Hopen.
  - rewrite decide_True by done. split; [done|]. simpl. by rewrite decide_True.
  - by rewrite decide_False.
Qed.

(** X2: joining the same room twice in a row, with nothing handled in
    between, sends the same snapshot again and leaves the registry, the
    sockets and the client set as the first join left them. *)
Theorem X2_join_room_twice_gives_the_same_snapshot ws room userId uuid uuid' sv :
  let t1 := on_message ws (msg_join_room room userId) uuid sv in
  let t2 := on_message ws (msg_join_room room userId) uuid' t1.1 in
  t2.2 = t1.2
  ∧ rooms t2.1 = rooms t1.1
  ∧ (∀ c, sockets t2.1 c = sockets t1.1 c)
  ∧ clients t2.1 = clients t1.1.
Proof.
  intros t1 t2. subst t1 t2. rewrite !on_message_join_room. simpl.
  assert (Hagain : getRoom room (getRoom room (rooms sv)).2
                   = ((getRoom room (rooms sv)).1, (getRoom room (rooms sv)).2)).
  { unfold getRoom. destruct (rooms sv !! room) eqn:E; simpl.
    - by rewrite E.
    - by rewrite lookup_insert_eq. }
  unfold room_of. simpl. rewrite Hagain. simpl.
  split.
  { unfold send. simpl. rewrite !fn_lookup_insert. simpl. done. }
  split; [done|]. split; [|done].
  intros c. unfold insert, fn_insert. by repeat case_decide.
Qed.

(** X3: after a [join_room], a [begin_stroke] of the same connection puts
    its stroke at the end of the room joined, authored by the user id the
    join left on the socket; the [room] field of the [begin_stroke] message
    plays no part, and no other room changes.  This is so when neither the
    name of the room nor that user id is inherited; both turns then return. *)
Theorem X3_strokes_go_to_the_room_joined
    ws room userId uuid room' color size tool uuid' sv :
  let t1 := on_message ws (msg_join_room room userId) uuid sv in
  let t2 := on_message ws (msg_begin_stroke room' color size tool) uuid' t1.1 in
  let author := if decide (userId = EmptyString)
                then ws_userId (sockets sv ws) else userId in
  plain room → plain author →
  listener ws (msg_join_room room userId) uuid sv = returned t1.1 (sent t1.2)
  ∧ listener ws (msg_begin_stroke room' color size tool) uuid' t1.1
    = returned t2.1 (sent t2.2)
  ∧ strokes (room_of t2.1 room)
  = strokes (room_of sv room) ++ [mkStroke uuid' author color size tool [] None]
  ∧ stack_of (room_of t2.1 room) author
    = uuid' :: stack_of (room_of sv room) author
  ∧ (∀ r, r ≠ room → room_of t2.1 r = room_of sv r).
Proof.
  intros t1 t2 author Hroom Hauthor.
  destruct (join_room_turn ws room userId uuid sv) as [Hrooms Hsock].
  fold t1 in Hrooms, Hsock.
  assert (Hws : sockets t1.1 ws = mkSocket room author (ws_readyState (sockets sv ws))).
  { rewrite Hsock. by rewrite decide_True. }
  split; [by apply listener_plain|].
  split; [apply listener_plain; simpl; by rewrite Hws|].
  subst t2. rewrite on_message_begin_stroke. simpl. rewrite Hws. simpl.
  rewrite !room_of_with_room, decide_True by done. simpl.
  rewrite Hrooms. split; [done|]. split.
  { unfold stack_of, push_id. simpl. by rewrite lookup_insert_eq. }
  intros r Hne. by rewrite room_of_with_room, decide_False.
Qed.

(** ** What a turn leaves alone *)

Lemma other_rooms_untouched ws msg uuid sv :
  ¬ is_join_room msg →
  let res := on_message ws msg uuid sv in
  (∀ r, r ≠ ws_room (sockets sv ws) → room_of res.1 r = room_of sv r)
  ∧ sockets res.1 = sockets sv
  ∧ clients res.1 = clients sv.
Proof.
  intros Hmsg res. subst res.
  destruct msg as [room userId|room color size tool|room strokeId points
                  |room strokeId|room userId|room userId|room|room userId x y].
  - by destruct Hmsg.
  - rewrite on_message_begin_stroke. simpl. split; [|done].
    intros r Hne. by rewrite room_of_with_room, decide_False.
  - rewrite on_message_add_points. simpl.
    destruct (case_add_points _ _ _) as [[[state' id] pts]|]; simpl.
    + split; [|done]. intros r Hne. by rewrite room_of_with_room, decide_False.
    + split; [|done]. intros r _. apply room_of_getRoom.
  - rewrite on_message_end_stroke. simpl. split; [|done].
    intros r _. apply room_of_getRoom.
  - rewrite on_message_undo. simpl. split; [|done].
    intros r Hne. by rewrite room_of_with_room, decide_False.
  - rewrite on_message_redo. simpl. split; [|done].
    intros r Hne. by rewrite room_of_with_room, decide_False.
  - rewrite on_message_clear. simpl. split; [|done].
    intros r Hne. by rewrite room_of_with_room, decide_False.
  - rewrite on_message_cursor. simpl. split; [|done].
    intros r _. apply room_of_getRoom.
Qed.


(** X5: a [cursor] message is relayed and nothing else: no room, socket or
    client set changes, and the frame, with the user id and coordinates of
    the message, goes to every open connection of the sender's room except
    the sender. *)
Theorem X5_cursor_is_a_stateless_relay ws room userId x y uuid sv :
  let res := on_message ws (msg_cursor room userId x y) uuid sv in
  let r := ws_room (sockets sv ws) in
  (∀ r', room_of res.1 r' = room_of sv r')
  ∧ sockets res.1 = sockets sv
  ∧ clients res.1 = clients sv
  ∧ res.2 = broadcast sv r (ev_cursor userId x y) (Some ws)
  ∧ (∀ c ev, (c, ev) ∈ res.2 ↔
       ev = ev_cursor userId x y ∧ c ∈ clients sv
       ∧ ws_readyState (sockets sv c) = OPEN ∧ ws_room (sockets sv c) = r
       ∧ c ≠ ws).
Proof.
  intros res r. subst res r. rewrite on_message_cursor. simpl.
  split; [intros r'; apply room_of_getRoom|].
  split; [done|]. split; [done|]. split; [done|].
  intros c ev. apply (elem_of_broadcast_except sv).
Qed.

(** X6: whatever the message, every frame of a turn goes to a connection
    whose socket is open and which, after the turn, is in the room the
    sender is in; it is a connection of the client set, or the sender. *)
Theorem X6_frames_reach_only_open_connections_of_the_room ws msg uuid sv c ev :
  let res := on_message ws msg uuid sv in
  (c, ev) ∈ res.2 →
  ws_readyState (sockets sv c) = OPEN
  ∧ ws_room (sockets res.1 c) = ws_room (sockets res.1 ws)
  ∧ (c ∈ clients sv ∨ c = ws).
Proof.
  intros res. subst res.
  assert (Hbc : ∀ data except,
    (c, ev) ∈ broadcast sv (ws_room (sockets sv ws)) data except →
    ws_readyState (sockets sv c) = OPEN
    ∧ ws_room (sockets sv c) = ws_room (sockets sv ws)
    ∧ (c ∈ clients sv ∨ c = ws)).
  { intros data except (_ & Hin & Hopen & Hroom & _)%elem_of_broadcast. auto. }
  destruct msg as [room userId|room color size tool|room strokeId points
                  |room strokeId|room userId|room userId|room|room userId x y].
  - rewrite on_message_join_room. simpl.
    intros (-> & _ & Hopen)%elem_of_send. simpl in Hopen.
    rewrite fn_lookup_insert in Hopen. auto.
  - rewrite on_message_begin_stroke. simpl.
    intros [Hin|Hin]%elem_of_app; [by eapply Hbc|].
    apply elem_of_send in Hin as (-> & _ & Hopen). auto.
  - rewrite on_message_add_points. simpl.
    destruct (case_add_points _ _ _) as [[[state' id] pts]|]; simpl.
    + apply Hbc.
    + by intros ?%elem_of_nil.
  - rewrite on_message_end_stroke. simpl. apply Hbc.
  - rewrite on_message_undo. simpl.
    destruct (case_undo _ _).2; [apply Hbc|by intros ?%elem_of_nil].
  - rewrite on_message_redo. simpl.
    destruct (case_redo _ _).2; [apply Hbc|by intros ?%elem_of_nil].
  - rewrite on_message_clear. simpl. apply Hbc.
  - rewrite on_message_cursor. simpl. apply Hbc.
Qed.

(** X7: one call of [broadcast] hands each connection of the client set at
    most one frame: exactly one if its socket is open, it is in the room and
    it is not the excepted connection, and none otherwise; the frame is the
    event given. *)
Theorem X7_broadcast_delivers_exactly_once sv room data except c :
  NoDup (clients sv) →
  copies c (broadcast sv room data except)
  = (if bool_decide (c ∈ clients sv ∧ ws_readyState (sockets sv c) = OPEN
                     ∧ ws_room (sockets sv c) = room ∧ Some c ≠ except)
     then 1 else 0)
  ∧ (∀ f, f ∈ broadcast sv room data except → f.2 = data).
Proof.
  intros Hnodup. split.
  - rewrite copies_broadcast by done. unfold is_recipient.
    case_bool_decide; [by rewrite decide_True|by rewrite decide_False].
  - intros [c' ev] Hin. by apply elem_of_broadcast in Hin as [? _].
Qed.

(** ** The shape of what the cases do to the stroke array *)

Lemma case_add_points_shape strokeId points state state' id pts :
  case_add_points strokeId points state = Some (state', id, pts) →
  ∃ l1 s l2, strokes state = l1 ++ s :: l2
    ∧ live_with_id strokeId s
    ∧ Forall (λ s', ¬ live_with_id strokeId s') l1
    ∧ state' = mkRoomState (l1 ++ push_points (take 200 points) s :: l2)
                 (userStacks state)
    ∧ id = strokeId ∧ pts = take 200 points.
Proof.
  unfold case_add_points.
  destruct (list_find _ _) as [[i s]|] eqn:E; [|done]. intros [= <- <- <-].
  apply list_find_split in E as (l1 & l2 & Hsts & -> & Hs & Hl1).
  exists l1, s, l2. rewrite Hsts, insert_middle.
  repeat split; try done; apply Hs.
Qed.

Lemma undo_loop_found sts stack stack' i s id :
  undo_loop sts stack = (stack', Some (i, s, id)) →
  list_find (live_with_id id) sts = Some (i, s).
Proof.
  induction stack as [|j stack IH]; simpl; [done|].
  destruct (list_find (live_with_id j) sts) as [[i' s']|] eqn:E; [|done].
  by intros [= <- <- <- <-].
Qed.

Lemma case_undo_shape userId state :
  match (case_undo userId state).2 with
  | Some id =>
      ∃ l1 s l2, strokes state = l1 ++ s :: l2
        ∧ live_with_id id s
        ∧ Forall (λ s', ¬ live_with_id id s') l1
        ∧ strokes (case_undo userId state).1
          = l1 ++ set_removed (Some true) s :: l2
  | None => strokes (case_undo userId state).1 = strokes state
  end.
Proof.
  unfold case_undo. destruct (userStacks state !! userId) as [stack|]; [|done].
  destruct (undo_loop (strokes state) stack) as [stack' [[[i s] id]|]] eqn:E;
    simpl; [|done].
  apply undo_loop_found, list_find_split in E as (l1 & l2 & Hsts & -> & Hs & Hl1).
  exists l1, s, l2. by rewrite Hsts, insert_middle.
Qed.

Lemma case_redo_shape userId state :
  match (case_redo userId state).2 with
  | Some s' =>
      ∃ pre s post, strokes state = pre ++ s :: post
        ∧ removed_by userId s
        ∧ Forall (λ s0, ¬ removed_by userId s0) post
        ∧ s' = set_removed (Some false) s
        ∧ (case_redo userId state).1
          = mkRoomState (pre ++ s' :: post)
              (push_id userId (stroke_id s) (userStacks state))
  | None => (case_redo userId state).1 = state
  end.
Proof.
  destruct (list_find (removed_by userId) (reverse (strokes state)))
    as [[idx s]|] eqn:Hfind.
  - apply list_find_split in Hfind as (p1 & p2 & Hrev & _ & Hs & Hp1).
    assert (Hsts : strokes state = reverse p2 ++ s :: reverse p1).
    { rewrite <- (reverse_involutive (strokes state)), Hrev.
      by rewrite reverse_app, reverse_cons, <- app_assoc. }
    rewrite (case_redo_last _ _ _ _ _ Hsts Hs (Forall_reverse _ _ Hp1)). simpl.
    exists (reverse p2), s, (reverse p1).
    split; [done|]. split; [done|]. split; [by apply Forall_reverse|done].
  - unfold case_redo. by rewrite Hfind.
Qed.

(** ** Strokes are kept, and their points only grow *)




(** ** How undo, redo and begin_stroke compose *)

Lemma restore_then_tombstone s :
  truthy (stroke_removed s) = true →
  set_removed (Some true) (set_removed (Some false) s) = s.
Proof. destruct s as [? ? ? ? ? ? [[]|]]; by intros. Qed.

Lemma undo_turn ws room userId uuid sv :
  let r := ws_room (sockets sv ws) in
  let res := on_message ws (msg_undo room userId) uuid sv in
  room_of res.1 r = (case_undo userId (room_of sv r)).1
  ∧ res.2 = match (case_undo userId (room_of sv r)).2 with
            | Some id => broadcast sv r (ev_remove_stroke id) None
            | None => []
            end.
Proof.
  intros r res. subst res. rewrite on_message_undo. simpl. fold r.
  by rewrite room_of_with_room, decide_True.
Qed.

Lemma redo_turn ws room userId uuid sv :
  let r := ws_room (sockets sv ws) in
  let res := on_message ws (msg_redo room userId) uuid sv in
  room_of res.1 r = (case_redo userId (room_of sv r)).1
  ∧ res.2 = match (case_redo userId (room_of sv r)).2 with
            | Some s => broadcast sv r (ev_restore_stroke s) None
            | None => []
            end
  ∧ sockets res.1 = sockets sv ∧ clients res.1 = clients sv.
Proof.
  intros r res. subst res. rewrite on_message_redo. simpl. fold r.
  by rewrite room_of_with_room, decide_True.
Qed.

Lemma broadcast_sockets sv sv' room data except :
  sockets sv' = sockets sv → clients sv' = clients sv →
  broadcast sv' room data except = broadcast sv room data except.
Proof.
  intros Hs Hc. unfold broadcast, is_recipient. rewrite Hc.
  f_equal. apply list_filter_iff. intros c. by rewrite Hs.
Qed.

(** X9: with unique stroke ids, a [redo] that restores a stroke followed by
    an [undo] for the same user, from any connection of the room, puts the
    room back: the [undo] tombstones the stroke just restored, the stroke
    array is what it was before the [redo], and so is every user's stack. *)
Theorem X9_undo_takes_back_the_redo
    ws ws' room room' userId uuid uuid' sv pre s post :
  let r := ws_room (sockets sv ws) in
  let state := room_of sv r in
  let t1 := on_message ws (msg_redo room userId) uuid sv in
  let t2 := on_message ws' (msg_undo room' userId) uuid' t1.1 in
  ws_room (sockets sv ws') = r →
  NoDup (stroke_id <$> strokes state) →
  strokes state = pre ++ s :: post →
  removed_by userId s →
  Forall (λ s', ¬ removed_by userId s') post →
  t1.2 = broadcast sv r (ev_restore_stroke (set_removed (Some false) s)) None
  ∧ t2.2 = broadcast sv r (ev_remove_stroke (stroke_id s)) None
  ∧ strokes (room_of t2.1 r) = strokes state
  ∧ (∀ u, stack_of (room_of t2.1 r) u = stack_of state u).
Proof.
  intros r state t1 t2 Hroom Hnodup Hsts Hs Hpost.
  destruct (redo_turn ws room userId uuid sv) as (R1 & F1 & Hsock & Hcl).
  fold r t1 state in R1, F1, Hsock, Hcl.
  rewrite (case_redo_last _ _ _ _ _ Hsts Hs Hpost) in R1, F1. simpl in R1, F1.
  assert (Hr : ws_room (sockets t1.1 ws') = r) by (by rewrite Hsock).
  destruct (undo_turn ws' room' userId uuid' t1.1) as (R2 & F2).
  fold t2 in R2, F2. rewrite Hr, R1 in R2, F2.
  assert (E2 : case_undo userId
                 (mkRoomState (pre ++ set_removed (Some false) s :: post)
                    (push_id userId (stroke_id s) (userStacks state)))
               = (mkRoomState (pre ++ set_removed (Some true)
                                        (set_removed (Some false) s) :: post)
                    (<[userId := stack_of state userId]>
                       (push_id userId (stroke_id s) (userStacks state))),
                  Some (stroke_id s))).
  { apply (case_undo_hit userId
             (mkRoomState (pre ++ set_removed (Some false) s :: post)
                (push_id userId (stroke_id s) (userStacks state)))
             [] (stroke_id s) (stack_of state userId)
             pre (set_removed (Some false) s) post); simpl.
    - unfold push_id. by rewrite lookup_insert_eq.
    - constructor.
    - done.
    - done.
    - rewrite Hsts in Hnodup. by apply NoDup_ids_before with post. }
  rewrite E2 in R2, F2. simpl in R2, F2. split; [done|]. split.
  { rewrite F2. by apply broadcast_sockets. }
  rewrite R2. simpl. split.
  - rewrite (restore_then_tombstone s) by apply Hs. done.
  - intros u. unfold stack_of, push_id. simpl.
    rewrite insert_insert_eq, lookup_insert. by case_decide; subst.
Qed.

(** X10: an [undo] for the author right after a [begin_stroke] with a fresh
    id tombstones that new stroke and nothing else, and takes its id off the
    author's stack again.  This is so when neither the name of the room nor
    the author's user id is inherited; both turns then return. *)
Theorem X10_undo_removes_the_stroke_just_begun
    ws ws' room room' color size tool uuid uuid' sv :
  let r := ws_room (sockets sv ws) in
  let state := room_of sv r in
  let author := ws_userId (sockets sv ws) in
  let t1 := on_message ws (msg_begin_stroke room color size tool) uuid sv in
  let t2 := on_message ws' (msg_undo room' author) uuid' t1.1 in
  plain r → plain author →
  ws_room (sockets sv ws') = r →
  (∀ s, s ∈ strokes state → stroke_id s ≠ uuid) →
  listener ws (msg_begin_stroke room color size tool) uuid sv
  = returned t1.1 (sent t1.2)
  ∧ listener ws' (msg_undo room' author) uuid' t1.1 = returned t2.1 (sent t2.2)
  ∧ strokes (room_of t2.1 r)
  = strokes state ++ [mkStroke uuid author color size tool [] (Some true)]
  ∧ (∀ u, stack_of (room_of t2.1 r) u = stack_of state u)
  ∧ t2.2 = broadcast sv r (ev_remove_stroke uuid) None.
Proof.
  intros r state author t1 t2 Hplain Hauthor Hroom Hfresh.
  split; [by apply listener_plain|].
  assert (T1 : t1 = (with_room sv r
                       (case_begin_stroke uuid author color size tool state).1
                       (getRoom r (rooms sv)).2, t1.2)).
  { subst t1. by rewrite on_message_begin_stroke. }
  assert (R1 : room_of t1.1 r
               = (case_begin_stroke uuid author color size tool state).1).
  { rewrite T1. simpl. by rewrite room_of_with_room, decide_True. }
  assert (Hsock : sockets t1.1 = sockets sv) by (by rewrite T1).
  assert (Hcl : clients t1.1 = clients sv) by (by rewrite T1).
  assert (Hr : ws_room (sockets t1.1 ws') = r) by (by rewrite Hsock).
  split; [apply listener_plain; simpl; by rewrite Hr|].
  destruct (undo_turn ws' room' author uuid' t1.1) as (R2 & F2).
  fold t2 in R2, F2. rewrite Hr, R1 in R2, F2.
  assert (E2 : case_undo author
                 (case_begin_stroke uuid author color size tool state).1
               = (mkRoomState
                    (strokes state
                     ++ [mkStroke uuid author color size tool [] (Some true)])
                    (<[author := stack_of state author]>
                       (push_id author uuid (userStacks state))),
                  Some uuid)).
  { apply (case_undo_hit author
             (case_begin_stroke uuid author color size tool state).1
             [] uuid (stack_of state author) (strokes state)
             (mkStroke uuid author color size tool [] None) []); simpl.
    - unfold push_id. by rewrite lookup_insert_eq.
    - constructor.
    - done.
    - done.
    - apply Forall_forall. intros s Hs [Hid _]. by apply (Hfresh s). }
  rewrite E2 in R2, F2. simpl in R2, F2. rewrite R2. simpl.
  split; [done|]. split.
  - intros u. unfold stack_of, push_id. simpl.
    rewrite insert_insert_eq, lookup_insert. by case_decide; subst.
  - rewrite F2. by apply broadcast_sockets.
Qed.

(** ** More on the states the authority reaches *)







(** ** The replica while a stroke is being drawn *)

Lemma client_run_cons rdy i inputs cl :
  client_run ((rdy, i) :: inputs) cl
  = ((client_run inputs (on_input rdy i cl).1).1,
     (on_input rdy i cl).2 ++ (client_run inputs (on_input rdy i cl).1).2).
Proof.
  simpl. destruct (on_input rdy i cl) as [c1 out1]. simpl.
  by destruct (client_run inputs c1).
Qed.

Lemma client_run_app inputs1 inputs2 cl :
  client_run (inputs1 ++ inputs2) cl
  = ((client_run inputs2 (client_run inputs1 cl).1).1,
     (client_run inputs1 cl).2 ++ (client_run inputs2 (client_run inputs1 cl).1).2).
Proof.
  revert cl. induction inputs1 as [|[rdy i] inputs1 IH]; intros cl.
  { simpl. by destruct (client_run inputs2 cl). }
  rewrite <- app_comm_cons, !client_run_cons, IH. simpl. by rewrite app_assoc.
Qed.

Lemma move_to_point (p : @Point number) : moved (move_to p) = [p].
Proof. by destruct p. Qed.

Lemma last_snoc_is_Some {A} (l : list A) a : is_Some (last (l ++ [a])).
Proof. rewrite last_snoc. eauto. Qed.

Lemma push_points_app (a b : list (@Point number)) s :
  push_points b (push_points a s) = push_points (a ++ b) s.
Proof. unfold push_points. simpl. by rewrite app_assoc. Qed.

(** While the replica waits for the echo, every move is drawn on the
    temporary stroke and buffered; nothing but the cursor is sent. *)
Lemma moves_while_pending (ps : list (@Point number)) : ∀ cl temp,
  drawing cl = true → currentId cl = None →
  localTempStroke cl = Some temp → stroke_points temp ≠ [] →
  client_run ((λ p, (OPEN, move_to p)) <$> ps) cl
  = (mkClient (client_userId cl) (client_room cl) (client_strokes cl) true None
       (pendingPoints cl ++ ps) (Some (push_points ps temp)),
     cursor_at cl <$> ps).
Proof.
  induction ps as [|p ps IH]; intros cl temp Hdraw Hid Htemp Hpts.
  { destruct cl, temp. simpl in *. subst. unfold push_points. simpl.
    by rewrite !app_nil_r. }
  rewrite fmap_cons, client_run_cons.
  assert (Hstep : on_input OPEN (move_to p) cl
    = (mkClient (client_userId cl) (client_room cl) (client_strokes cl) true None
         (pendingPoints cl ++ [p]) (Some (push_points [p] temp)),
       [cursor_at cl p])).
  { unfold move_to, on_input, pointermove, renderCursor, bound_id. simpl.
    rewrite Hdraw, Hid, Htemp.
    destruct (last (stroke_points temp)) eqn:E.
    - by destruct p.
    - by apply last_None in E. }
  rewrite Hstep. simpl.
  erewrite IH; [|done|done|done|simpl; by destruct (stroke_points temp)].
  simpl. rewrite <- !app_assoc, push_points_app. done.
Qed.

(** X13: a gesture begun on an open socket sends [begin_stroke] at once and
    then only cursor positions while the echo is awaited.  When the echo
    for the replica's own user arrives, the mirror gets an entry whose points
    are the points moved through, in order, and these go out in one
    [add_points] under the canonical id (no message if there were none).
    The point of the "pointerdown" itself is in neither. *)
Theorem X13_the_echo_binds_the_buffered_points
    x0 y0 t0 color size tool (ps : list Point) stroke cl :
  let t1 := client_run ((OPEN, in_pointerdown x0 y0 t0 color size tool)
                        :: ((λ p, (OPEN, move_to p)) <$> ps)) cl in
  let t2 := client_on_message (ev_begin_stroke stroke) t1.1 in
  stroke_userId stroke = client_userId cl →
  t1.2 = msg_begin_stroke (client_room cl) color size tool :: (cursor_at cl <$> ps)
  ∧ client_strokes t1.1 = client_strokes cl
  ∧ pendingPoints t1.1 = ps
  ∧ client_strokes t2.1
    = client_strokes cl ++ [push_points ps (with_no_points stroke)]
  ∧ currentId t2.1 = Some (stroke_id stroke)
  ∧ pendingPoints t2.1 = []
  ∧ localTempStroke t2.1 = None
  ∧ t2.2 = match ps with
           | [] => []
           | _ :: _ => [msg_add_points (client_room cl) (stroke_id stroke) ps]
           end.
Proof.
  intros t1 t2 Hown. subst t2 t1. rewrite client_run_cons.
  cbn [on_input pointerdown client_send default fst snd].
  erewrite moves_while_pending; [|done|done|done|done]. simpl.
  split; [done|]. split; [done|]. split; [done|].
  rewrite decide_True by done.
  destruct ps; simpl; by rewrite ?app_nil_r.
Qed.

(** X14: when the pointer is lifted before the echo has arrived, the points
    buffered so far are dropped: nothing but [begin_stroke] and cursor
    positions has been sent, the echo that arrives afterwards only adds an
    entry without points to the mirror and binds nothing, and the next timer
    tick sends nothing. *)
Theorem X14_lifting_before_the_echo_drops_the_buffer
    x0 y0 t0 color size tool (ps : list Point) stroke cl :
  let t1 := client_run ((OPEN, in_pointerdown x0 y0 t0 color size tool)
                        :: ((λ p, (OPEN, move_to p)) <$> ps)
                        ++ [(OPEN, in_pointerup)]) cl in
  let t2 := client_on_message (ev_begin_stroke stroke) t1.1 in
  let t3 := on_input OPEN in_tick t2.1 in
  t1.2 = msg_begin_stroke (client_room cl) color size tool :: (cursor_at cl <$> ps)
  ∧ points_sent t1.2 = []
  ∧ t2.2 = []
  ∧ t3 = (t2.1, [])
  ∧ t2.1 = mkClient (client_userId cl) (client_room cl)
             (client_strokes cl ++ [with_no_points stroke]) false None [] None.
Proof.
  intros t1 t2 t3. subst t3 t2 t1. rewrite client_run_cons, client_run_app.
  cbn [on_input pointerdown client_send default fst snd].
  erewrite moves_while_pending; [|done|done|done|done]. simpl.
  rewrite app_nil_r. split; [done|]. split.
  { unfold points_sent. simpl. induction ps; [done|]. by simpl. }
  unfold client_on_message.
  rewrite decide_False by (simpl; by intros (_ & ? & _)).
  done.
Qed.

(** ** The timer, and the replica once the stroke is bound *)

(** X15: a tick on an open socket loses and duplicates nothing: the points
    it sends followed by the points still buffered are the points buffered
    before; either the buffer is now empty or no canonical id is bound and
    the tick did nothing; and a second tick right after it sends nothing
    and changes nothing. *)
Theorem X15_a_tick_sends_each_buffered_point_once cl :
  let t1 := flush OPEN cl in
  let t2 := flush OPEN t1.1 in
  points_sent t1.2 ++ pendingPoints t1.1 = pendingPoints cl
  ∧ (pendingPoints t1.1 = [] ∨ bound_id cl = None ∧ t1 = (cl, []))
  ∧ t2 = (t1.1, []).
Proof.
  intros t1 t2. subst t2 t1. unfold flush.
  destruct (pendingPoints cl) as [|p ps] eqn:Hp.
  { simpl. rewrite Hp. auto. }
  destruct (bound_id cl) as [id|] eqn:Hb; simpl.
  - unfold points_sent. simpl. rewrite !app_nil_r.
    split; [done|]. split; [by left|done].
  - rewrite Hp, Hb. split; [done|]. split; [by right|done].
Qed.

Lemma points_sent_app (out1 out2 : list (@Msg number)) :
  points_sent (out1 ++ out2) = points_sent out1 ++ points_sent out2.
Proof. unfold points_sent. by rewrite fmap_app, concat_app. Qed.

Lemma move_while_bound cl id l1 s l2 x y t :
  bound_to cl id l1 s l2 →
  let p := mkPoint x y t in
  let res := on_input OPEN (in_pointermove x y t) cl in
  bound_to res.1 id l1 (push_points [p] s) l2
  ∧ res.2 = [msg_cursor (client_room cl) (client_userId cl) x y]
  ∧ client_room res.1 = client_room cl ∧ client_userId res.1 = client_userId cl
  ∧ pendingPoints res.1
    = (if decide (stroke_points s = []) then pendingPoints cl
       else pendingPoints cl ++ [p]).
Proof.
  intros (Hdraw & Hbound & Hsts & Hs & Hl1) p res. subst res.
  unfold on_input, pointermove, renderCursor. simpl.
  rewrite Hdraw, Hbound, Hsts, (list_find_middle _ _ _ _ Hs Hl1), insert_middle.
  assert (Hs' : live_with_id id (push_points [p] s)) by apply Hs.
  destruct (last (stroke_points s)) eqn:E; simpl.
  - rewrite decide_False by (intros Hnil; by rewrite Hnil in E).
    repeat split; try done; try (by unfold bound_id in *); apply Hs'.
  - apply last_None in E. rewrite decide_True by done.
    repeat split; try done; try (by unfold bound_id in *); apply Hs'.
Qed.

Lemma tick_while_bound cl id l1 s l2 :
  bound_to cl id l1 s l2 →
  let res := on_input OPEN in_tick cl in
  bound_to res.1 id l1 s l2
  ∧ client_room res.1 = client_room cl ∧ client_userId res.1 = client_userId cl
  ∧ points_sent res.2 ++ pendingPoints res.1 = pendingPoints cl
  ∧ Forall (for_stroke id) res.2
  ∧ pendingPoints res.1 = [].
Proof.
  intros (Hdraw & Hbound & Hsts & Hs & Hl1) res. subst res.
  unfold on_input, flush. rewrite Hbound.
  destruct (pendingPoints cl) as [|q qs] eqn:Hp; simpl.
  - rewrite Hp. repeat split; try done; try (by unfold bound_id in *); apply Hs.
  - unfold points_sent. simpl. rewrite !app_nil_r.
    repeat split; try done; try (by unfold bound_id in *); try apply Hs.
    by repeat constructor.
Qed.

Lemma push_points_nil s : push_points [] s = s.
Proof. destruct s. unfold push_points. simpl. by rewrite app_nil_r. Qed.

(** Moves and ticks on a bound stroke that has a point already. *)
Lemma bound_accounting inputs : ∀ cl id l1 s l2,
  bound_to cl id l1 s l2 → stroke_points s ≠ [] →
  Forall is_move_or_tick inputs →
  let t := client_run ((λ i, (OPEN, i)) <$> inputs) cl in
  bound_to t.1 id l1 (push_points (concat (moved <$> inputs)) s) l2
  ∧ points_sent t.2 ++ pendingPoints t.1
    = pendingPoints cl ++ concat (moved <$> inputs)
  ∧ Forall (λ m, for_stroke id m ∨ payload m = []) t.2
  ∧ client_room t.1 = client_room cl ∧ client_userId t.1 = client_userId cl.
Proof.
  induction inputs as [|i inputs IH]; intros cl id l1 s l2 Hb Hpts Hin t; subst t.
  { simpl. rewrite app_nil_r, push_points_nil. by repeat split; try apply Hb. }
  apply Forall_cons in Hin as [Hi Hin]. rewrite fmap_cons, client_run_cons.
  destruct i as [| |x y t| | | | |]; try done.
  - destruct (move_while_bound cl id l1 s l2 x y t Hb) as (Hb1 & Hout & Hr1 & Hu1 & Hp1).
    rewrite decide_False in Hp1 by done.
    set (res := on_input OPEN (in_pointermove x y t) cl) in *.
    destruct (IH _ _ _ _ _ Hb1) as (Hb2 & Hacc & Hto & Hr2 & Hu2); [|done|].
    { simpl. by destruct (stroke_points s). }
    change (concat (moved <$> in_pointermove x y t :: inputs))
      with ([mkPoint x y t] ++ concat (moved <$> inputs)).
    cbn [fst snd]. rewrite push_points_app in Hb2. split; [done|].
    rewrite points_sent_app, Hout, <- app_assoc, Hacc, Hp1, <- app_assoc.
    split; [done|]. rewrite Hr2, Hu2. split; [|done].
    apply Forall_app. split; [|done].
    apply Forall_singleton. by right.
  - destruct (tick_while_bound cl id l1 s l2 Hb) as (Hb1 & Hr1 & Hu1 & Hsent & Hto1 & _).
    set (res := on_input OPEN in_tick cl) in *.
    destruct (IH _ _ _ _ _ Hb1 Hpts Hin) as (Hb2 & Hacc & Hto & Hr2 & Hu2).
    change (concat (moved <$> in_tick :: inputs))
      with (concat (moved <$> inputs)).
    cbn [fst snd]. split; [done|].
    rewrite points_sent_app, <- app_assoc, Hacc, app_assoc, Hsent.
    split; [done|]. rewrite Hr2, Hu2. split; [|done].
    apply Forall_app. split; [|done].
    eapply Forall_impl; [exact Hto1|]. by left.
Qed.

(** X16: while a stroke is bound and its mirror entry has a point already,
    moves and timer ticks on an open socket keep exact account of the
    points: the mirror entry grows by the points moved through, in order,
    and the points sent in [add_points] messages followed by the points
    still buffered are the points buffered at the start followed by the
    points moved through.  Every message that carries points is for the
    bound id. *)
Theorem X16_bound_points_are_sent_or_buffered inputs cl id l1 s l2 :
  let t := client_run ((λ i, (OPEN, i)) <$> inputs) cl in
  let new := concat (moved <$> inputs) in
  drawing cl = true → bound_id cl = Some id →
  client_strokes cl = l1 ++ s :: l2 →
  live_with_id id s → Forall (λ s', ¬ live_with_id id s') l1 →
  stroke_points s ≠ [] →
  Forall is_move_or_tick inputs →
  client_strokes t.1 = l1 ++ push_points new s :: l2
  ∧ points_sent t.2 ++ pendingPoints t.1 = pendingPoints cl ++ new
  ∧ Forall (λ m, for_stroke id m ∨ payload m = []) t.2.
Proof.
  intros t new Hdraw Hbound Hsts Hs Hl1 Hpts Hin.
  assert (Hb : bound_to cl id l1 s l2) by (by repeat split; try apply Hs).
  destruct (bound_accounting inputs cl id l1 s l2 Hb Hpts Hin)
    as ((_ & _ & Hsts' & _) & Hacc & Hto & _).
  by split.
Qed.

Lemma moved_move_to (ps : list (@Point number)) : concat (moved <$> (move_to <$> ps)) = ps.
Proof.
  induction ps as [|p ps IH]; [done|].
  rewrite !fmap_cons, concat_cons, IH, move_to_point. done.
Qed.

Lemma moves_are_inputs (ps : list (@Point number)) :
  (λ p, (OPEN, move_to p)) <$> ps = (λ i, (OPEN, i)) <$> (move_to <$> ps).
Proof. by rewrite <- list_fmap_compose. Qed.

Lemma moves_are_moves (ps : list (@Point number)) : Forall is_move_or_tick (move_to <$> ps).
Proof. apply Forall_fmap, Forall_forall. by intros p _. Qed.

Lemma pointermove_carries_no_points rdy x y t cl :
  Forall (λ m, payload m = []) (pointermove rdy x y t cl).2.
Proof.
  unfold pointermove, renderCursor, client_send.
  destruct rdy; simpl; try by constructor.
  all: destruct (drawing cl); simpl; try by repeat constructor.
  all: destruct (bound_id cl); simpl.
  all: try (destruct (list_find _ _) as [[? ?]|]; simpl;
            [destruct (last _)|]; by repeat constructor).
  all: destruct (localTempStroke cl); simpl;
       [destruct (last _)|]; by repeat constructor.
Qed.

Lemma moves_carry_no_points rdy (ps : list (@Point number)) : ∀ cl,
  points_sent (client_run ((λ p, (rdy, move_to p)) <$> ps) cl).2 = [].
Proof.
  induction ps as [|p ps IH]; intros cl; [done|].
  rewrite fmap_cons, client_run_cons. cbn [snd].
  rewrite points_sent_app, IH, app_nil_r.
  pose proof (pointermove_carries_no_points rdy (point_x p) (point_y p)
                (point_t p) cl) as Hno.
  unfold points_sent. change (on_input rdy (move_to p) cl)
    with (pointermove rdy (point_x p) (point_y p) (point_t p) cl).
  induction Hno as [|m out Hm _ IHout]; [done|]. simpl. by rewrite Hm.
Qed.

(** X17: when the echo arrives before the pointer has moved, the mirror
    entry is bound without a point, and the first move after it is not sent:
    its point goes into the mirror, but drawing the segment throws before
    the point is queued.  After further moves and a timer tick the mirror
    entry holds all the points moved through and the [add_points] sent
    holds all but the first. *)
Theorem X17_the_first_move_after_an_early_echo_is_not_sent
    x0 y0 t0 color size tool stroke p1 (ps : list Point) cl :
  let t1 := on_input OPEN (in_pointerdown x0 y0 t0 color size tool) cl in
  let t2 := client_on_message (ev_begin_stroke stroke) t1.1 in
  let t3 := client_run (((λ p, (OPEN, move_to p)) <$> (p1 :: ps))
                        ++ [(OPEN, in_tick)]) t2.1 in
  stroke_userId stroke = client_userId cl →
  stroke_id stroke ≠ EmptyString →
  truthy (stroke_removed stroke) = false →
  Forall (λ s, ¬ live_with_id (stroke_id stroke) s) (client_strokes cl) →
  t2.2 = []
  ∧ client_strokes t3.1
    = client_strokes cl ++ [push_points (p1 :: ps) (with_no_points stroke)]
  ∧ points_sent t3.2 = ps
  ∧ pendingPoints t3.1 = [].
Proof.
  intros t1 t2 t3 Hown Hid Hlive Hfresh.
  assert (T2 : t2 = (mkClient (client_userId cl) (client_room cl)
                       (client_strokes cl ++ [with_no_points stroke]) true
                       (Some (stroke_id stroke)) [] None, [])).
  { subst t2 t1. unfold client_on_message, on_input, pointerdown. simpl.
    by rewrite decide_True. }
  assert (Hb2 : bound_to t2.1 (stroke_id stroke) (client_strokes cl)
                  (with_no_points stroke) []).
  { rewrite T2. repeat split; try done. unfold bound_id. simpl.
    by rewrite decide_False. }
  split; [by rewrite T2|].
  subst t3. rewrite fmap_cons, <- app_comm_cons, client_run_cons, client_run_app.
  destruct p1 as [x1 y1 t1'].
  destruct (move_while_bound t2.1 _ _ _ _ x1 y1 t1' Hb2)
    as (Hb3 & Hout3 & _ & _ & Hp3).
  rewrite decide_True in Hp3 by done.
  set (c3 := (on_input OPEN (move_to (mkPoint x1 y1 t1')) t2.1).1) in *.
  rewrite moves_are_inputs.
  destruct (bound_accounting (move_to <$> ps) c3 _ _ _ _ Hb3)
    as (Hb4 & Hacc & _); [done|apply moves_are_moves|].
  rewrite moved_move_to, push_points_app in Hb4. rewrite moved_move_to in Hacc.
  set (t4 := client_run ((λ i, (OPEN, i)) <$> (move_to <$> ps)) c3) in *.
  destruct (tick_while_bound t4.1 _ _ _ _ Hb4) as (Hb5 & _ & _ & Hsent & _ & Hp5).
  rewrite (client_run_cons OPEN in_tick [] t4.1).
  cbn [client_run fst snd]. split; [apply Hb5|]. split; [|done].
  rewrite !points_sent_app, app_nil_r.
  change ((on_input OPEN (move_to (mkPoint x1 y1 t1')) t2.1).2)
    with ((on_input OPEN (in_pointermove x1 y1 t1') t2.1).2).
  rewrite Hout3.
  assert (points_sent [msg_cursor (client_room t2.1) (client_userId t2.1) x1 y1]
          = []) as -> by done.
  rewrite Hp5, app_nil_r in Hsent. rewrite Hsent.
  change (pendingPoints c3)
    with (pendingPoints (on_input OPEN (in_pointermove x1 y1 t1') t2.1).1) in Hacc.
  rewrite Hp3, T2 in Hacc. simpl in Hacc. rewrite <- Hacc.
  subst t4. rewrite <- moves_are_inputs, moves_carry_no_points. done.
Qed.

(** X18: lifting the pointer on a bound stroke sends [end_stroke] and throws
    the buffer away: after moves with no timer tick in between, the points
    moved through are in the mirror entry, no message sent carried any of
    them, and the next tick sends nothing. *)
Theorem X18_lifting_the_pointer_drops_the_unsent_points
    (ps : list Point) cl id l1 s l2 :
  let t := client_run (((λ p, (OPEN, move_to p)) <$> ps)
                       ++ [(OPEN, in_pointerup)]) cl in
  drawing cl = true → bound_id cl = Some id →
  client_strokes cl = l1 ++ s :: l2 →
  live_with_id id s → Forall (λ s', ¬ live_with_id id s') l1 →
  stroke_points s ≠ [] →
  t.1 = mkClient (client_userId cl) (client_room cl)
          (l1 ++ push_points ps s :: l2) false None [] None
  ∧ last t.2 = Some (msg_end_stroke (client_room cl) id)
  ∧ points_sent t.2 = []
  ∧ on_input OPEN in_tick t.1 = (t.1, []).
Proof.
  intros t Hdraw Hbound Hsts Hs Hl1 Hpts. subst t.
  assert (Hb : bound_to cl id l1 s l2) by (by repeat split; try apply Hs).
  rewrite client_run_app, moves_are_inputs.
  destruct (bound_accounting (move_to <$> ps) cl id l1 s l2 Hb Hpts)
    as ((Hd & Hbd & Hsts' & _) & _ & _ & Hroom & Huser); [apply moves_are_moves|].
  rewrite moved_move_to in Hsts'.
  set (t1 := client_run ((λ i, (OPEN, i)) <$> (move_to <$> ps)) cl) in *.
  assert (Hup : client_run [(OPEN, in_pointerup)] t1.1
    = (mkClient (client_userId cl) (client_room cl)
         (l1 ++ push_points ps s :: l2) false None [] None,
       [msg_end_stroke (client_room cl) id])).
  { rewrite client_run_cons. cbn [client_run fst snd on_input].
    unfold finishStroke. rewrite Hd, Hbd, Hsts', Hroom, Huser. done. }
  rewrite Hup. cbn [fst snd]. split; [done|]. split; [by rewrite last_snoc|].
  split; [|done].
  rewrite points_sent_app. subst t1.
  by rewrite <- moves_are_inputs, moves_carry_no_points.
Qed.

(** ** The mirror *)

(** X19: after a [restore_stroke] event the entry of the mirror that is
    found by the id of the restored stroke is that stroke as sent: it
    replaces the first entry with that id, or is appended when there is
    none.  No other index changes. *)
Theorem X19_restore_stroke_inserts_or_replaces_by_id stroke cl :
  let cl' := (client_on_message (ev_restore_stroke stroke) cl).1 in
  ∃ i, list_find (has_id (stroke_id stroke)) (client_strokes cl') = Some (i, stroke)
       ∧ i ≤ length (client_strokes cl)
       ∧ (∀ j, j ≠ i → client_strokes cl' !! j = client_strokes cl !! j).
Proof.
  intros cl'. subst cl'. unfold client_on_message.
  destruct (list_find _ (client_strokes cl)) as [[i s]|] eqn:E; simpl.
  - apply list_find_split in E as (l1 & l2 & Hsts & -> & _ & Hl1).
    exists (length l1). rewrite Hsts, insert_middle.
    split; [by apply list_find_middle|]. split.
    + rewrite length_app. lia.
    + intros j Hj. rewrite <- (insert_middle l1 l2 s stroke).
      by rewrite list_lookup_insert_ne.
  - apply list_find_None in E. exists (length (client_strokes cl)).
    split; [|split; [done|]].
    + rewrite <- (app_nil_r [stroke]). simpl. by apply list_find_middle.
    + intros j Hj. destruct (decide (j < length (client_strokes cl))).
      * by rewrite lookup_app_l.
      * rewrite !lookup_ge_None_2; [done|lia|rewrite length_app; simpl; lia].
Qed.

(** ** Drawing without a connection *)

Lemma moves_without_connection rdy (ps : list (@Point number)) : ∀ cl,
  rdy ≠ OPEN → drawing cl = true → currentId cl = None →
  let t := client_run ((λ p, (rdy, move_to p)) <$> ps) cl in
  t.2 = [] ∧ drawing t.1 = true ∧ currentId t.1 = None
  ∧ client_strokes t.1 = client_strokes cl
  ∧ client_room t.1 = client_room cl ∧ client_userId t.1 = client_userId cl.
Proof.
  induction ps as [|p ps IH]; intros cl Hrdy Hdraw Hid t; subst t; [done|].
  rewrite fmap_cons, client_run_cons.
  assert (Hstep : let r := on_input rdy (move_to p) cl in
    r.2 = [] ∧ drawing r.1 = true ∧ currentId r.1 = None
    ∧ client_strokes r.1 = client_strokes cl
    ∧ client_room r.1 = client_room cl ∧ client_userId r.1 = client_userId cl).
  { unfold on_input, move_to, pointermove, renderCursor, client_send, bound_id.
    rewrite Hdraw, Hid.
    destruct rdy; try done; simpl;
      (destruct (localTempStroke cl) as [temp|]; [|done]);
      by destruct (last (stroke_points temp)). }
  destruct Hstep as (Hout & Hd1 & Hi1 & Hs1 & Hr1 & Hu1).
  destruct (IH _ Hrdy Hd1 Hi1) as (Hout2 & ? & ? & Hs2 & Hr2 & Hu2).
  cbn [fst snd]. rewrite Hout, Hout2, Hs2, Hr2, Hu2. by repeat split.
Qed.

(** X20: a whole gesture made while the socket is not open (still
    connecting, closing or closed) reaches nobody and leaves no trace: no
    message is transmitted, the mirror is unchanged, and the replica is
    idle again with an empty buffer. *)
Theorem X20_a_gesture_without_an_open_socket_is_lost
    rdy x0 y0 t0 color size tool (ps : list Point) cl :
  let t := client_run ((rdy, in_pointerdown x0 y0 t0 color size tool)
                       :: ((λ p, (rdy, move_to p)) <$> ps)
                       ++ [(rdy, in_pointerup)]) cl in
  rdy ≠ OPEN →
  t = (mkClient (client_userId cl) (client_room cl) (client_strokes cl)
         false None [] None, []).
Proof.
  intros t Hrdy. subst t. rewrite client_run_cons, client_run_app.
  set (c1 := (on_input rdy (in_pointerdown x0 y0 t0 color size tool) cl).1).
  assert (Hout1 : (on_input rdy (in_pointerdown x0 y0 t0 color size tool) cl).2 = []).
  { by destruct rdy. }
  destruct (moves_without_connection rdy ps c1 Hrdy)
    as (Hout2 & Hd & Hi & Hs & Hr & Hu); [done|done|].
  set (t2 := client_run ((λ p, (rdy, move_to p)) <$> ps) c1) in *.
  assert (Hup : client_run [(rdy, in_pointerup)] t2.1
    = (mkClient (client_userId cl) (client_room cl) (client_strokes cl)
         false None [] None, [])).
  { rewrite client_run_cons. cbn [client_run fst snd on_input].
    unfold finishStroke, bound_id. by rewrite Hd, Hi, Hs, Hr, Hu. }
  by rewrite Hup, Hout1, Hout2.
Qed.

(** ** Authority and replicas together *)

Lemma deliver_fan_out (P : nat → Prop) {Pdec : ∀ x, Decision (P x)}
    (data : @Event number) (l : list nat) c cl :
  NoDup l →
  deliver c ((λ client, (client, data)) <$> filter P l) cl
  = if decide (c ∈ l ∧ P c) then client_on_message data cl else (cl, []).
Proof.
  intros Hnodup. induction Hnodup as [|x l Hx _ IH].
  { rewrite decide_False; [done|]. intros [Hin _]. by apply elem_of_nil in Hin. }
  rewrite filter_cons. destruct (decide (P x)) as [HPx|HPx].
  - rewrite fmap_cons. cbn [deliver]. destruct (decide (x = c)) as [->|Hne].
    + rewrite decide_False in IH by (by intros [? _]).
      etrans; [|by rewrite decide_True by (split; [left|done])].
      destruct (client_on_message data cl) as [cl1 m1].
      assert (Hrest : deliver c ((λ client, (client, data)) <$> filter P l) cl1
                      = (cl1, [])).
      { clear IH. induction l as [|z l IHl]; [done|].
        apply not_elem_of_cons in Hx as [Hz Hl]. rewrite filter_cons.
        destruct (decide (P z)); [|by apply IHl].
        rewrite fmap_cons. cbn [deliver]. rewrite decide_False by done.
        by apply IHl. }
      rewrite Hrest. by rewrite app_nil_r.
    + etrans; [exact IH|]. apply decide_ext. rewrite elem_of_cons.
      split; [intros [? ?]; by auto|]. intros [[->|?] ?]; done.
  - etrans; [exact IH|]. apply decide_ext. rewrite elem_of_cons.
    split; [intros [? ?]; by auto|]. intros [[->|?] ?]; done.
Qed.

Lemma deliver_broadcast sv room data except c cl :
  NoDup (clients sv) →
  deliver c (broadcast sv room data except) cl
  = if decide (c ∈ clients sv ∧ is_recipient sv room except c)
    then client_on_message data cl else (cl, []).
Proof. apply deliver_fan_out. Qed.

Lemma deliver_send_other sv ws data c cl :
  c ≠ ws → deliver c (send sv ws data) cl = (cl, []).
Proof.
  intros Hne. unfold send. case_decide; [|done]. simpl.
  by rewrite decide_False.
Qed.

Lemma NoDup_has_id_before l1 s l2 :
  NoDup (stroke_id <$> (l1 ++ s :: l2)) →
  Forall (λ s', ¬ has_id (stroke_id s) s') l1.
Proof.
  rewrite fmap_app, NoDup_app. intros (_ & Hdisj & _).
  apply Forall_forall. intros s' Hin Hid.
  apply (Hdisj (stroke_id s')).
  - by apply list_elem_of_fmap_2.
  - rewrite Hid. simpl. left.
Qed.

(** X21: the mirror of an onlooker follows the room.  Take an open
    connection other than the sender whose replica mirrors the strokes of
    the room it is in, the ids of that room being unique, and a turn that
    meets no inherited name and whose frames come through the serialisation
    with their numbers as they were.  The listener returns, and after the
    delivery of the frames addressed to it the replica mirrors the strokes of
    its room again.  The one case set aside is a [begin_stroke] of another
    connection with the replica's own user id while the replica awaits an
    echo of its own. *)
Theorem X21_an_onlookers_mirror_follows_the_room ws msg uuid sv c cl rt :
  let r := ws_room (sockets sv c) in
  let res := on_message ws msg uuid sv in
  plain_turn sv ws msg →
  on_the_wire rt res.2 = res.2 →
  NoDup (clients sv) → c ∈ clients sv → c ≠ ws →
  ws_readyState (sockets sv c) = OPEN →
  NoDup (stroke_id <$> strokes (room_of sv r)) →
  ¬ (is_begin_stroke msg ∧ client_userId cl = ws_userId (sockets sv ws)
     ∧ awaiting_echo cl) →
  client_strokes cl = strokes (room_of sv r) →
  listener ws msg uuid sv = returned res.1 (sent res.2)
  ∧ client_strokes (deliver c (on_the_wire rt res.2) cl).1
    = strokes (room_of res.1 r).
Proof.
  intros r res Hplain Hwire Hclients Hc Hne Hopen Hids Hbind Hmirror.
  rewrite Hwire. clear Hwire.
  split; [by apply listener_plain|]. clear Hplain. subst res.
  set (rw := ws_room (sockets sv ws)).
  assert (Hrec : ∀ except, except = None ∨ except = Some ws →
    (c ∈ clients sv ∧ is_recipient sv rw except c) ↔ r = rw).
  { intros except Hex. unfold is_recipient. fold r. split; [by intros (_ & _ & ? & _)|].
    intros <-. repeat split; try done. destruct Hex as [->| ->]; congruence. }
  assert (Hbc : ∀ data except, except = None ∨ except = Some ws →
    deliver c (broadcast sv rw data except) cl
    = if decide (r = rw) then client_on_message data cl else (cl, [])).
  { intros data except Hex. rewrite deliver_broadcast by done.
    apply decide_ext. by apply Hrec. }
  assert (Hother : ¬ is_join_room msg → r ≠ rw →
    room_of (on_message ws msg uuid sv).1 r = room_of sv r).
  { intros Hjoin Hr. by apply other_rooms_untouched. }
  destruct msg as [room userId|room color size tool|room strokeId points
                  |room strokeId|room userId|room userId|room|room userId x y].
  - destruct (join_room_turn ws room userId uuid sv) as [-> _].
    rewrite on_message_join_room. simpl. by rewrite deliver_send_other.
  - rewrite on_message_begin_stroke. cbn [fst snd]. fold rw.
    rewrite deliver_app, deliver_send_other by done. cbn [fst].
    rewrite Hbc by auto. rewrite room_of_with_room.
    destruct (decide (r = rw)) as [Hr|Hr]; [|done].
    rewrite <- Hr. simpl. unfold client_on_message.
    rewrite decide_False.
    + simpl. by rewrite Hmirror.
    + intros (Hu & Hd & Hi). apply Hbind. by repeat split.
  - rewrite on_message_add_points. cbn zeta. fold rw.
    destruct (case_add_points _ _ _) as [[[state' id] pts]|] eqn:E; cbn [fst snd].
    + rewrite Hbc by auto. rewrite room_of_with_room.
      destruct (decide (r = rw)) as [Hr|Hr]; [|done].
      apply case_add_points_shape in E
        as (l1 & s0 & l2 & Hsts & Hs0 & Hl1 & -> & -> & ->).
      rewrite <- Hr in Hsts. simpl. unfold client_on_message.
      rewrite Hmirror, Hsts, (list_find_middle _ _ _ _ Hs0 Hl1). simpl.
      by rewrite insert_middle.
    + simpl. by rewrite room_of_getRoom.
  - rewrite on_message_end_stroke. cbn [fst snd]. fold rw.
    rewrite Hbc by auto. rewrite room_of_getRoom. by case_decide.
  - destruct (undo_turn ws room userId uuid sv) as [Hroom Hframes]. fold rw in Hroom, Hframes.
    pose proof (case_undo_shape userId (room_of sv rw)) as Hshape.
    rewrite Hframes.
    destruct (decide (r = rw)) as [Hr|Hr].
    2: { rewrite Hother; [|by intros []|done].
         destruct (case_undo userId (room_of sv rw)).2; [|done].
         by rewrite Hbc by auto. }
    rewrite Hr, Hroom. rewrite Hr in Hmirror, Hids.
    destruct (case_undo userId (room_of sv rw)).2 as [id|]; [|by rewrite Hshape].
    destruct Hshape as (l1 & s0 & l2 & Hsts & [Hid _] & _ & ->).
    rewrite Hbc by auto. unfold client_on_message.
    rewrite Hmirror, Hsts. rewrite Hsts in Hids.
    rewrite (list_find_middle (has_id id) l1 l2 s0); [|done|].
    + simpl. by rewrite insert_middle.
    + rewrite <- Hid. by eapply NoDup_has_id_before.
  - destruct (redo_turn ws room userId uuid sv) as (Hroom & Hframes & _).
    fold rw in Hroom, Hframes.
    pose proof (case_redo_shape userId (room_of sv rw)) as Hshape.
    rewrite Hframes.
    destruct (decide (r = rw)) as [Hr|Hr].
    2: { rewrite Hother; [|by intros []|done].
         destruct (case_redo userId (room_of sv rw)).2; [|done].
         by rewrite Hbc by auto. }
    rewrite Hr, Hroom. rewrite Hr in Hmirror, Hids.
    destruct (case_redo userId (room_of sv rw)).2 as [s'|]; [|by rewrite Hshape].
    destruct Hshape as (pre & s0 & post & Hsts & _ & _ & -> & ->).
    rewrite Hbc by auto. unfold client_on_message.
    rewrite Hmirror, Hsts. rewrite Hsts in Hids.
    rewrite (list_find_middle (has_id (stroke_id s0)) pre post s0); [|done|].
    + simpl. by rewrite insert_middle.
    + by eapply NoDup_has_id_before.
  - rewrite on_message_clear. cbn [fst snd]. fold rw.
    rewrite Hbc by auto. rewrite room_of_with_room.
    by destruct (decide (r = rw)).
  - rewrite on_message_cursor. cbn [fst snd]. fold rw.
    rewrite Hbc by auto. rewrite room_of_getRoom. by case_decide.
Qed.

(** X22: cursor events feed back.  When a [cursor] message of one open
    connection is relayed to another open connection of the room, the
    replica behind that one renders it and, in doing so, sends a [cursor]
    message of its own with the same coordinates; the authority relays that
    one back to the first connection. *)
Theorem X22_a_relayed_cursor_comes_back ws c room userId x y uuid uuid' sv cl :
  let t1 := on_message ws (msg_cursor room userId x y) uuid sv in
  let reply := (deliver c t1.2 cl).2 in
  let t2 := run ((λ m, (c, m, uuid')) <$> reply) t1.1 in
  NoDup (clients sv) → ws ∈ clients sv → c ∈ clients sv → c ≠ ws →
  ws_readyState (sockets sv ws) = OPEN → ws_readyState (sockets sv c) = OPEN →
  ws_room (sockets sv c) = ws_room (sockets sv ws) →
  (c, ev_cursor userId x y) ∈ t1.2
  ∧ reply = [msg_cursor (client_room cl) (client_userId cl) x y]
  ∧ (ws, ev_cursor (client_userId cl) x y) ∈ t2.2.
Proof.
  intros t1 reply t2 Hclients Hws Hc Hne Hows Hoc Hroom.
  assert (T1 : t1 = (mkServer (getRoom (ws_room (sockets sv ws)) (rooms sv)).2
                       (sockets sv) (clients sv),
                     broadcast sv (ws_room (sockets sv ws))
                       (ev_cursor userId x y) (Some ws))).
  { subst t1. by rewrite on_message_cursor. }
  assert (Hreply : reply = [msg_cursor (client_room cl) (client_userId cl) x y]).
  { subst reply. rewrite T1. cbn [snd]. rewrite deliver_broadcast by done.
    rewrite decide_True; [done|]. repeat split; try done. congruence. }
  split.
  { rewrite T1. apply elem_of_broadcast_except. by repeat split. }
  split; [done|].
  subst t2. rewrite Hreply, T1. cbn [fst fmap list_fmap].
  rewrite run_cons, on_message_cursor. cbn [run fst snd]. rewrite app_nil_r.
  apply elem_of_broadcast_except. simpl. by repeat split.
Qed.

(** ** Rooms on first use, and connections that have not joined *)


(** X24: a connection that has never sent [join_room] acts in the room
    "default" under the random id it got when it connected: its
    [begin_stroke], whatever [room] the message names, appends the stroke to
    "default" with that id as author, and no other room changes.  Setting
    up a connection keeps the state within the states the authority
    reaches. *)
Theorem X24_an_unjoined_connection_draws_in_default
    ws userId room color size tool uuid sv :
  let sv1 := on_connection ws userId sv in
  let t := on_message ws (msg_begin_stroke room color size tool) uuid sv1 in
  strokes (room_of t.1 "default")
  = strokes (room_of sv "default") ++ [mkStroke uuid userId color size tool [] None]
  ∧ (∀ r, r ≠ "default" → room_of t.1 r = room_of sv r)
  ∧ (reachable sv → reachable sv1).
Proof.
  intros sv1 t. subst t. rewrite on_message_begin_stroke.
  assert (Hws : sockets sv1 ws
                = mkSocket "default" userId (ws_readyState (sockets sv ws))).
  { subst sv1. unfold on_connection. simpl. by rewrite fn_lookup_insert. }
  cbn [fst snd]. rewrite Hws. cbn [ws_room ws_userId].
  split; [|split].
  - by rewrite room_of_with_room, decide_True.
  - intros r Hne. by rewrite room_of_with_room, decide_False.
  - intros Hreach. by apply (reachable_connection sv).
Qed.

(** ** Inherited names *)



End Coverage.

(** * Concrete runs *)

(** C1 at a concrete run: a stroke begun in an empty room, two batches and
    the end signal. *)
Lemma C1_witness :
  let inputs :=
    [(0, msg_begin_stroke "studio" "#000000" 2%Z pen, "S1");
     (0, msg_add_points "studio" "S1" [pt 1; pt 2], unused);
     (0, msg_add_points "studio" "S1" [pt 3], unused);
     (0, msg_end_stroke "studio" "S1", unused)] in
  strokes (room_of (run inputs fresh_server).1 "studio")
  = [mkStroke "S1" "alice" "#000000" 2%Z pen [pt 1; pt 2; pt 3] None].
Proof.
  apply (C1_points_are_concatenated_truncated_payloads 0 "studio" "#000000" 2%Z pen
           "S1" fresh_server
           [(msg_add_points "studio" "S1" [pt 1; pt 2], unused);
            (msg_add_points "studio" "S1" [pt 3], unused);
            (msg_end_stroke "studio" "S1", unused)]).
  - intros s Hs. vm_compute in Hs. by apply elem_of_nil in Hs.
  - repeat constructor.
Defined.

(** C1 as stated fails on a batch of 201 points: the stroke ends with 200
    points, not with the 201 of the payload. *)
Lemma C1_counterexample :
  let batch := replicate 201 (pt 0) in
  let inputs :=
    [(0, msg_begin_stroke "studio" "#000000" 2%Z pen, "S1");
     (0, msg_add_points "studio" "S1" batch, unused)] in
  let payloads := concat ((λ i, payload i.1.2) <$> inputs) in
  strokes (room_of (run inputs fresh_server).1 "studio")
  = [mkStroke "S1" "alice" "#000000" 2%Z pen (replicate 200 (pt 0)) None]
  ∧ payloads = replicate 201 (pt 0)
  ∧ replicate 200 (pt 0) ≠ payloads.
Proof.
  split; [by vm_compute|]. split; [by vm_compute|].
  intros H. apply (f_equal length) in H. vm_compute in H. discriminate H.
Qed.

(** C2 at the sample room: after [undo], [undo], [redo] the stroke restored
    is C. *)
Lemma C2_witness :
  let t1 := on_message 0 (msg_undo "studio" "alice") unused server_ABC in
  let t2 := on_message 0 (msg_undo "studio" "alice") unused t1.1 in
  let t3 := on_message 0 (msg_redo "studio" "alice") unused t2.1 in
  strokes (room_of t3.1 "studio")
  = [stroke_A; set_removed (Some true) stroke_B; set_removed (Some false) stroke_C]
  ∧ userStacks (room_of t3.1 "studio") !! "alice" = Some ["C"; "A"]
  ∧ t3.2 = [(0, ev_restore_stroke (set_removed (Some false) stroke_C));
            (1, ev_restore_stroke (set_removed (Some false) stroke_C))].
Proof.
  destruct (C2_undo_undo_redo_restores_latest_created 0 "studio" "alice"
              unused unused unused server_ABC
              [] stroke_A [] stroke_B [] stroke_C [] ["A"])
    as (_ & _ & _ & _ & Hstrokes & Hstack & Hframes & _).
  - by vm_compute.
  - apply (bool_decide_unpack _). by vm_compute.
  - reflexivity.
  - reflexivity.
  - reflexivity.
  - reflexivity.
  - reflexivity.
  - reflexivity.
  - constructor.
  - by vm_compute.
  - split; [exact Hstrokes|]. split; [exact Hstack|]. rewrite Hframes. by vm_compute.
Defined.

(** C2 as stated fails at the sample room: the claim has the [redo] restore
    B; the reverse scan meets C first, so C is restored, C's id is pushed,
    [restore_stroke] carries C, and B stays tombstoned. *)
Lemma C2_counterexample :
  let inputs :=
    [(0, msg_undo "studio" "alice", unused);
     (0, msg_undo "studio" "alice", unused);
     (0, msg_redo "studio" "alice", unused)] in
  let t := run inputs server_ABC in
  strokes (room_of t.1 "studio")
  = [stroke_A; set_removed (Some true) stroke_B; set_removed (Some false) stroke_C]
  ∧ userStacks (room_of t.1 "studio") !! "alice" = Some ["C"; "A"]
  ∧ t.2 = [(0, ev_remove_stroke "C"); (1, ev_remove_stroke "C");
           (0, ev_remove_stroke "B"); (1, ev_remove_stroke "B");
           (0, ev_restore_stroke (set_removed (Some false) stroke_C));
           (1, ev_restore_stroke (set_removed (Some false) stroke_C))]
  ∧ ¬ (∃ s, s ∈ strokes (room_of t.1 "studio") ∧ stroke_id s = "B"
            ∧ truthy (stroke_removed s) = false).
Proof.
  split; [by vm_compute|]. split; [by vm_compute|]. split; [by vm_compute|].
  intros (s & Hin & Hid & Hlive). vm_compute in Hin.
  repeat (apply elem_of_cons in Hin as [->|Hin]; [by vm_compute in Hid, Hlive|]).
  by apply elem_of_nil in Hin.
Qed.

(** C4 at a batch of 250 points for stroke A. *)
Lemma C4_witness :
  let batch := replicate 250 (pt 7) in
  let res := on_message 0 (msg_add_points "studio" "A" batch) unused server_ABC in
  strokes (room_of res.1 "studio")
  = [push_points (replicate 200 (pt 7)) stroke_A; stroke_B; stroke_C]
  ∧ length (take 200 batch) = 200
  ∧ length (drop 200 batch) = 50
  ∧ (∀ c ev, (c, ev) ∈ res.2 ↔ ev = ev_add_points "A" (replicate 200 (pt 7)) ∧ c = 1).
Proof.
  destruct (C4_add_points_truncates_to_200 0 "studio" "A" (replicate 250 (pt 7))
              unused server_ABC [] stroke_A [stroke_B; stroke_C])
    as (Hstrokes & _ & _ & _ & Hframes & _ & Hlen).
  - by vm_compute.
  - by split.
  - constructor.
  - destruct Hlen as (Htake & _ & Hdrop); [by vm_compute|].
    split; [etrans; [exact Hstrokes|by vm_compute]|]. split; [done|]. split; [done|].
    intros c ev. etrans; [exact (Hframes c ev)|].
    change (take 200 (replicate 250 (pt 7))) with (replicate 200 (pt 7)).
    split.
    + intros (-> & Hc & Hopen & Hroom & Hne). split; [done|].
      by destruct c as [|[|[|[|c]]]].
    + intros [-> ->]. split; [done|]. split; [|done].
      vm_compute. right. left.
Defined.

(** C5 at the sample room: [undo] tombstones C, the latest stroke, and the
    [redo] that follows brings C back with its three points. *)
Lemma C5_witness :
  let sv1 := (on_message 0 (msg_undo "studio" "alice") unused server_ABC).1 in
  let res := on_message 0 (msg_redo "studio" "alice") unused sv1 in
  strokes (room_of sv1 "studio")
  = [stroke_A; stroke_B; set_removed (Some true) stroke_C]
  ∧ strokes (room_of res.1 "studio")
    = [stroke_A; stroke_B; set_removed (Some false) stroke_C]
  ∧ stroke_points (set_removed (Some false) stroke_C) = [pt 4; pt 5; pt 6].
Proof.
  split; [by vm_compute|].
  destruct (C5_redo_after_undo_restores_points 0 "studio" "alice" unused unused
              server_ABC [stroke_A; stroke_B] stroke_C [])
    as (Hstrokes & Hpoints & _).
  - by vm_compute.
  - reflexivity.
  - by vm_compute.
  - reflexivity.
  - constructor.
  - split; [exact Hstrokes|exact Hpoints].
Defined.

(** C5 as stated fails in a state the authority reaches: alice draws A and
    B and undoes B; the next [undo] tombstones A, and the [redo] right after
    it restores B, the later-created tombstoned stroke, while A stays
    tombstoned. *)
Lemma C5_counterexample :
  let sv1 :=
    (run [(0, msg_begin_stroke "studio" "#112233" 2%Z pen, "A");
          (0, msg_begin_stroke "studio" "#445566" 3%Z pen, "B");
          (0, msg_undo "studio" "alice", unused)] fresh_server).1 in
  let t_undo := on_message 0 (msg_undo "studio" "alice") unused sv1 in
  let t_redo := on_message 0 (msg_redo "studio" "alice") unused t_undo.1 in
  let A := mkStroke "A" "alice" "#112233" 2%Z pen [] in
  let B := mkStroke "B" "alice" "#445566" 3%Z pen [] in
  strokes (room_of sv1 "studio") = [A None; B (Some true)]
  ∧ strokes (room_of t_undo.1 "studio") = [A (Some true); B (Some true)]
  ∧ t_undo.2 = [(0, ev_remove_stroke "A"); (1, ev_remove_stroke "A")]
  ∧ strokes (room_of t_redo.1 "studio") = [A (Some true); B (Some false)]
  ∧ t_redo.2 = [(0, ev_restore_stroke (B (Some false)));
                (1, ev_restore_stroke (B (Some false)))].
Proof. repeat split; by vm_compute. Qed.

(** ** Concrete runs for the further properties *)

(** X1 at the sample room: alice joins "studio" again and her replica takes
    the snapshot. *)
Lemma X1_witness :
  let res := on_message 0 (msg_join_room "studio" "alice") unused server_ABC in
  listener 0 (msg_join_room "studio" "alice") unused server_ABC
  = returned res.1 (sent res.2)
  ∧ res.2 = [(0, ev_room_state (room_of server_ABC "studio"))]
  ∧ client_strokes (deliver 0 (on_the_wire (λ n, n) res.2) alice_idle).1
    = [stroke_A; stroke_B; stroke_C].
Proof.
  destruct (X1_join_room_sends_the_snapshot_to_the_joiner 0 "studio" "alice" unused
              server_ABC alice_idle (λ n, n))
    as (Hturn & _ & _ & _ & Hframes & Hmirror).
  - by vm_compute.
  - by vm_compute.
  - split; [exact Hturn|]. split; [exact Hframes|].
    etrans; [exact Hmirror|by vm_compute].
Defined.

(** X3 at the empty sample server: alice joins "lobby" as "erin" and begins
    a stroke that names "studio". *)
Lemma X3_witness :
  let t1 := on_message 0 (msg_join_room "lobby" "erin") unused fresh_server in
  let t2 := on_message 0 (msg_begin_stroke "studio" "#112233" 2%Z pen) "S1" t1.1 in
  strokes (room_of t2.1 "lobby") = [mkStroke "S1" "erin" "#112233" 2%Z pen [] None]
  ∧ strokes (room_of t2.1 "studio") = [].
Proof.
  destruct (X3_strokes_go_to_the_room_joined 0 "lobby" "erin" unused "studio"
              "#112233" 2%Z pen "S1" fresh_server)
    as (_ & _ & Hstrokes & _ & Hothers).
  - by vm_compute.
  - by vm_compute.
  - split; [etrans; [exact Hstrokes|by vm_compute]|].
    etrans; [exact (f_equal strokes (Hothers "studio" ltac:(discriminate)))|].
    by vm_compute.
Defined.




(** X6 at the sample room: the [remove_stroke] frame for bob. *)
Lemma X6_witness :
  ws_readyState (sample_sockets 1) = OPEN
  ∧ ws_room (sample_sockets 1) = ws_room (sample_sockets 0).
Proof.
  destruct (X6_frames_reach_only_open_connections_of_the_room 0
              (msg_undo "studio" "alice") unused server_ABC 1
              (ev_remove_stroke "C")) as (Hopen & Hroom & _).
  - vm_compute. right. left.
  - split; [exact Hopen|exact Hroom].
Defined.

(** X7 at the sample connections: of a broadcast to "studio" that excepts
    alice, bob gets one frame and alice none. *)
Lemma X7_witness :
  copies 1 (broadcast fresh_server "studio" ev_clear (Some 0)) = 1
  ∧ copies 0 (broadcast fresh_server "studio" ev_clear (Some 0)) = 0.
Proof.
  assert (Hnodup : NoDup (clients fresh_server)).
  { apply (bool_decide_unpack _). by vm_compute. }
  split.
  - destruct (X7_broadcast_delivers_exactly_once fresh_server "studio" ev_clear
                (Some 0) 1 Hnodup) as [H _].
    etrans; [exact H|by vm_compute].
  - destruct (X7_broadcast_delivers_exactly_once fresh_server "studio" ev_clear
                (Some 0) 0 Hnodup) as [H _].
    etrans; [exact H|by vm_compute].
Defined.


(** X9 at a room whose only stroke is tombstoned: [redo] by alice's
    connection, [undo] by bob's. *)
Lemma X9_witness :
  let t1 := on_message 0 (msg_redo "studio" "alice") unused server_tombstoned in
  let t2 := on_message 1 (msg_undo "studio" "alice") unused t1.1 in
  strokes (room_of t2.1 "studio") = [set_removed (Some true) stroke_A]
  ∧ t2.2 = [(0, ev_remove_stroke "A"); (1, ev_remove_stroke "A")].
Proof.
  destruct (X9_undo_takes_back_the_redo 0 1 "studio" "studio" "alice" unused unused
              server_tombstoned [] (set_removed (Some true) stroke_A) [])
    as (_ & Hframes & Hstrokes & _).
  - reflexivity.
  - apply (bool_decide_unpack _). by vm_compute.
  - by vm_compute.
  - by split.
  - constructor.
  - split; [etrans; [exact Hstrokes|by vm_compute]|].
    etrans; [exact Hframes|by vm_compute].
Defined.

(** X10 at the empty sample server: alice begins S1, bob's connection sends
    the [undo] for alice. *)
Lemma X10_witness :
  let t1 := on_message 0 (msg_begin_stroke "studio" "#112233" 2%Z pen) "S1"
              fresh_server in
  let t2 := on_message 1 (msg_undo "studio" "alice") unused t1.1 in
  strokes (room_of t2.1 "studio")
  = [mkStroke "S1" "alice" "#112233" 2%Z pen [] (Some true)]
  ∧ stack_of (room_of t2.1 "studio") "alice" = [].
Proof.
  destruct (X10_undo_removes_the_stroke_just_begun 0 1 "studio" "studio"
              "#112233" 2%Z pen "S1" unused fresh_server)
    as (_ & _ & Hstrokes & Hstacks & _).
  - by vm_compute.
  - by vm_compute.
  - reflexivity.
  - intros s Hs. vm_compute in Hs. by apply elem_of_nil in Hs.
  - split; [exact Hstrokes|]. etrans; [exact (Hstacks "alice")|by vm_compute].
Defined.



(** X13 at alice's idle replica: two moves, then the echo. *)
Lemma X13_witness :
  let t1 := client_run [(OPEN, in_pointerdown 0%Z 0%Z 0%Z "#112233" 2%Z pen);
                        (OPEN, move_to (pt 1)); (OPEN, move_to (pt 2))]
              alice_idle in
  let t2 := client_on_message (ev_begin_stroke echo_S1) t1.1 in
  client_strokes t2.1 = [push_points [pt 1; pt 2] echo_S1]
  ∧ t2.2 = [msg_add_points "studio" "S1" [pt 1; pt 2]].
Proof.
  destruct (X13_the_echo_binds_the_buffered_points 0%Z 0%Z 0%Z "#112233" 2%Z pen
              [pt 1; pt 2] echo_S1 alice_idle)
    as (_ & _ & _ & Hmirror & _ & _ & _ & Hsent); [reflexivity|].
  split; [exact Hmirror|exact Hsent].
Defined.

(** X16 at alice's replica bound to A: move, tick, move. *)
Lemma X16_witness :
  let t := client_run [(OPEN, in_pointermove 7%Z 7%Z 7%Z); (OPEN, in_tick);
                       (OPEN, in_pointermove 8%Z 8%Z 8%Z)] alice_drawing_A in
  client_strokes t.1 = [push_points [pt 7; pt 8] stroke_A]
  ∧ points_sent t.2 ++ pendingPoints t.1 = [pt 7; pt 8].
Proof.
  destruct (X16_bound_points_are_sent_or_buffered
              [in_pointermove 7%Z 7%Z 7%Z; in_tick; in_pointermove 8%Z 8%Z 8%Z]
              alice_drawing_A "A" [] stroke_A [])
    as (Hmirror & Hacc & _).
  - reflexivity.
  - reflexivity.
  - reflexivity.
  - by split.
  - constructor.
  - discriminate.
  - by repeat constructor.
  - split; [exact Hmirror|exact Hacc].
Defined.

(** X17 at alice's idle replica: the echo arrives before three moves. *)
Lemma X17_witness :
  let t1 := on_input OPEN (in_pointerdown 0%Z 0%Z 0%Z "#112233" 2%Z pen) alice_idle in
  let t2 := client_on_message (ev_begin_stroke echo_S1) t1.1 in
  let t3 := client_run [(OPEN, move_to (pt 1)); (OPEN, move_to (pt 2));
                        (OPEN, move_to (pt 3)); (OPEN, in_tick)] t2.1 in
  client_strokes t3.1 = [push_points [pt 1; pt 2; pt 3] echo_S1]
  ∧ points_sent t3.2 = [pt 2; pt 3].
Proof.
  destruct (X17_the_first_move_after_an_early_echo_is_not_sent 0%Z 0%Z 0%Z
              "#112233" 2%Z pen echo_S1 (pt 1) [pt 2; pt 3] alice_idle)
    as (_ & Hmirror & Hsent & _).
  - reflexivity.
  - discriminate.
  - reflexivity.
  - constructor.
  - split; [exact Hmirror|exact Hsent].
Defined.

(** X18 at alice's replica bound to A: two moves and the pointer is lifted. *)
Lemma X18_witness :
  let t := client_run [(OPEN, move_to (pt 7)); (OPEN, move_to (pt 8));
                       (OPEN, in_pointerup)] alice_drawing_A in
  client_strokes t.1 = [push_points [pt 7; pt 8] stroke_A]
  ∧ last t.2 = Some (msg_end_stroke "studio" "A")
  ∧ points_sent t.2 = [].
Proof.
  destruct (X18_lifting_the_pointer_drops_the_unsent_points [pt 7; pt 8]
              alice_drawing_A "A" [] stroke_A [])
    as (Hstate & Hlast & Hsent & _).
  - reflexivity.
  - reflexivity.
  - reflexivity.
  - by split.
  - constructor.
  - discriminate.
  - split; [exact (f_equal client_strokes Hstate)|]. split; [exact Hlast|exact Hsent].
Defined.

(** X20 at alice's idle replica with a closed socket. *)
Lemma X20_witness :
  client_run [(CLOSED, in_pointerdown 0%Z 0%Z 0%Z "#112233" 2%Z pen);
              (CLOSED, move_to (pt 1)); (CLOSED, in_pointerup)] alice_idle
  = (alice_idle, []).
Proof.
  apply (X20_a_gesture_without_an_open_socket_is_lost CLOSED 0%Z 0%Z 0%Z
           "#112233" 2%Z pen [pt 1] alice_idle).
  discriminate.
Defined.

(** X21 at the sample room: alice adds a point to A, bob's mirror follows. *)
Lemma X21_witness :
  let res := on_message 0 (msg_add_points "studio" "A" [pt 9]) unused server_ABC in
  listener 0 (msg_add_points "studio" "A" [pt 9]) unused server_ABC
  = returned res.1 (sent res.2)
  ∧ client_strokes (deliver 1 (on_the_wire (λ n, n) res.2) bob_watching).1
    = [push_points [pt 9] stroke_A; stroke_B; stroke_C]
  ∧ strokes (room_of res.1 "studio")
    = [push_points [pt 9] stroke_A; stroke_B; stroke_C].
Proof.
  destruct (X21_an_onlookers_mirror_follows_the_room 0
              (msg_add_points "studio" "A" [pt 9]) unused server_ABC 1
              bob_watching (λ n, n)) as [Hturn Hsync].
  - by vm_compute.
  - by vm_compute.
  - apply (bool_decide_unpack _). by vm_compute.
  - right. left.
  - discriminate.
  - reflexivity.
  - apply (bool_decide_unpack _). by vm_compute.
  - by intros [[] _].
  - by vm_compute.
  - split; [exact Hturn|].
    split; [etrans; [exact Hsync|by vm_compute]|by vm_compute].
Defined.

(** X22 at the sample room: alice's cursor comes back from bob's replica. *)
Lemma X22_witness :
  let t1 := on_message 0 (msg_cursor "studio" "alice" 5%Z 6%Z) unused server_ABC in
  let reply := (deliver 1 t1.2 bob_watching).2 in
  let t2 := run ((λ m, (1, m, unused)) <$> reply) t1.1 in
  reply = [msg_cursor "studio" "bob" 5%Z 6%Z]
  ∧ (0, ev_cursor "bob" 5%Z 6%Z) ∈ t2.2.
Proof.
  destruct (X22_a_relayed_cursor_comes_back 0 1 "studio" "alice" 5%Z 6%Z
              unused unused server_ABC bob_watching)
    as (_ & Hreply & Hback).
  - apply (bool_decide_unpack _). by vm_compute.
  - left.
  - right. left.
  - discriminate.
  - reflexivity.
  - reflexivity.
  - reflexivity.
  - split; [exact Hreply|exact Hback].
Defined.


(** X24 at the empty sample server: a fifth connection draws at once. *)
Lemma X24_witness :
  let sv1 := on_connection 4 "eve" fresh_server in
  let t := on_message 4 (msg_begin_stroke "studio" "#000000" 1%Z pen) "S9" sv1 in
  strokes (room_of t.1 "default") = [mkStroke "S9" "eve" "#000000" 1%Z pen [] None]
  ∧ strokes (room_of t.1 "studio") = []
  ∧ reachable sv1.
Proof.
  destruct (X24_an_unjoined_connection_draws_in_default 4 "eve" "studio"
              "#000000" 1%Z pen "S9" fresh_server) as (Hdefault & Hothers & Hreach).
  split; [exact Hdefault|]. split.
  - etrans; [exact (f_equal strokes (Hothers "studio" ltac:(discriminate)))|].
    by vm_compute.
  - apply Hreach. by apply reachable_start.
Defined.

(** X25 at the sample room with a stale id on top of the stack: the stale id
    is popped without a frame, C is tombstoned and announced to the two open
    connections of the room, and the loop stops there. *)
Lemma X25_witness :
  let res := on_message 0 (msg_undo "studio" "alice") unused server_ghost in
  listener 0 (msg_undo "studio" "alice") unused server_ghost
  = returned res.1 (sent res.2)
  ∧ strokes (room_of res.1 "studio")
    = [stroke_A; stroke_B; set_removed (Some true) stroke_C]
  ∧ userStacks (room_of res.1 "studio") !! "alice" = Some ["B"; "A"]
  ∧ res.2 = [(0, ev_remove_stroke "C"); (1, ev_remove_stroke "C")].
Proof.
  destruct (X25_undo_pops_until_removable 0 "studio" "alice" unused server_ghost
              ["ghost"]) as (Hturn & _ & _ & _ & Hhit & _ & _).
  - by vm_compute.
  - by vm_compute.
  - vm_compute. repeat constructor; by intros [? _].
  - destruct (Hhit "C" ["B"; "A"] [stroke_A; stroke_B] stroke_C [])
      as (Hstrokes & Hstacks & Hframes & _).
    + by vm_compute.
    + by vm_compute.
    + by split.
    + repeat constructor; by intros [? _].
    + split; [exact Hturn|]. split; [exact Hstrokes|].
      split; [|etrans; [exact Hframes|by vm_compute]].
      etrans; [exact (f_equal (λ m, m !! "alice") Hstacks)|by vm_compute].
Defined.

(** X26 at the sample room: after [clear], an [add_points], an [end_stroke],
    an [undo] and a re-join later, the room is still empty and bob's
    connection gets nothing out of an [undo] or a [redo] for alice. *)
Lemma X26_witness :
  let res := on_message 0 (msg_clear "studio") unused server_ABC in
  let inputs :=
    [(1, msg_add_points "studio" "A" [pt 9], unused);
     (0, msg_end_stroke "studio" "A", unused);
     (0, msg_undo "studio" "alice", unused);
     (1, msg_join_room "studio" "bob", unused)] in
  let sv2 := (run inputs res.1).1 in
  listen inputs res.1 = Some (sv2, sent (run inputs res.1).2)
  ∧ room_of res.1 "studio" = mkRoomState [] ∅
  ∧ res.2 = [(0, ev_clear); (1, ev_clear)]
  ∧ room_of sv2 "studio" = mkRoomState [] ∅
  ∧ listener 1 (msg_undo "studio" "alice") unused sv2
    = returned (on_message 1 (msg_undo "studio" "alice") unused sv2).1 []
  ∧ listener 1 (msg_redo "studio" "alice") unused sv2
    = returned (on_message 1 (msg_redo "studio" "alice") unused sv2).1 [].
Proof.
  intros res inputs sv2.
  assert (Hlisten : listen inputs res.1 = Some (sv2, sent (run inputs res.1).2))
    by (by vm_compute).
  destruct (X26_clear_empties_room_and_history 0 "studio" unused server_ABC
              inputs sv2 (sent (run inputs res.1).2) 1 "studio" "alice" unused)
    as (_ & Hroom & _ & Hframes & _ & Hlater & (Hundo & _) & (Hredo & _)).
  - by vm_compute.
  - by vm_compute.
  - exact Hlisten.
  - repeat constructor; by intros [].
  - by vm_compute.
  - split; [exact Hlisten|]. split; [exact Hroom|].
    split; [etrans; [exact Hframes|by vm_compute]|].
    split; [exact Hlater|]. split; [exact Hundo|exact Hredo].
Defined.

(** X27 at a tombstoned stroke: points for it change nothing and reach
    nobody. *)
Lemma X27_witness :
  let res := on_message 0 (msg_add_points "studio" "A" [pt 8; pt 9]) unused
               server_tombstoned in
  listener 0 (msg_add_points "studio" "A" [pt 8; pt 9]) unused server_tombstoned
  = returned res.1 []
  ∧ room_of res.1 "studio" = room_of server_tombstoned "studio" ∧ res.2 = [].
Proof.
  destruct (X27_add_points_miss_is_a_silent_noop 0 "studio" "A" [pt 8; pt 9] unused
              server_tombstoned) as (Hturn & Hrooms & _ & _ & Hframes).
  - by vm_compute.
  - intros s Hs _. vm_compute in Hs.
    apply list_elem_of_singleton in Hs. by subst s.
  - split; [exact Hturn|]. split; [exact (Hrooms "studio")|exact Hframes].
Defined.



(** X29 at the sample connections: alice's open connection 0 gets the
    announcement twice, bob's connection 1 once, carol in the other room
    and dave's closed connection not at all; a replica appends two entries
    with the id "S1". *)
Lemma X29_witness :
  let res := on_message 0 (msg_begin_stroke "studio" "#112233" 2%Z pen) "S1"
               fresh_server in
  let s := mkStroke "S1" "alice" "#112233" 2%Z pen [] None in
  let cl := mkClient "alice" "studio" [] true None [pt 1] None in
  let cl2 := (client_on_message (ev_begin_stroke s)
                (client_on_message (ev_begin_stroke s) cl).1).1 in
  listener 0 (msg_begin_stroke "studio" "#112233" 2%Z pen) "S1" fresh_server
  = returned res.1 (sent res.2)
  ∧ res.2 = [(0, ev_begin_stroke s); (1, ev_begin_stroke s); (0, ev_begin_stroke s)]
  ∧ copies 0 res.2 = 2 ∧ copies 1 res.2 = 1
  ∧ copies 2 res.2 = 0 ∧ copies 3 res.2 = 0
  ∧ stroke_id <$> client_strokes cl2 = ["S1"; "S1"].
Proof.
  intros res s cl cl2.
  destruct (X29_begin_stroke_reaches_initiator_twice 0 "studio" "#112233" 2%Z pen
              "S1" fresh_server)
    as (Hturn & _ & Hframes & _ & Htwice & Honce & Hnone & Hclient).
  - by vm_compute.
  - by vm_compute.
  - apply (bool_decide_unpack _). by vm_compute.
  - left.
  - reflexivity.
  - split; [exact Hturn|].
    split; [etrans; [exact Hframes|by vm_compute]|].
    split; [exact Htwice|].
    split; [apply Honce; [done|right; left|reflexivity|reflexivity]|].
    split; [apply Hnone; [done|]; by intros (_ & _ & ?)|].
    split; [apply Hnone; [done|]; by intros (_ & ? & _)|].
    destruct (Hclient cl) as (s1 & s2 & _ & E & Hid1 & Hid2).
    etrans; [exact (f_equal (fmap stroke_id) E)|]. simpl. by rewrite Hid1, Hid2.
Defined.


(** ** Turns that meet an inherited name *)

(** C3 at a user id the stacks inherit: an [undo] for "constructor" in the
    sample room.  That user has no stack of its own, so the lookup yields
    the built-in function [Object], whose [length] is 1: the loop is entered
    and [stack.pop()] throws.  The turn is no silent no-op. *)
Theorem C3_undo_for_an_inherited_user_id_throws :
  userStacks (room_of server_ABC "studio") !! "constructor" = None
  ∧ inherited "constructor" = Some (builtin_function 1)
  ∧ listener 0 (msg_undo "studio" "constructor") unused server_ABC
    = threw server_ABC [].
Proof. repeat split; by vm_compute. Qed.

(** C6 at a user id the stacks inherit: alice clears the sample room, and
    bob's connection sends an [undo] for "constructor" into the empty room.
    The [clear] returns; the [undo] after it throws. *)
Theorem C6_undo_after_clear_throws_for_an_inherited_user_id :
  let cleared := (on_message 0 (msg_clear "studio") unused server_ABC).1 in
  listener 0 (msg_clear "studio") unused server_ABC
  = returned cleared [(0, Some ev_clear); (1, Some ev_clear)]
  ∧ room_of cleared "studio" = mkRoomState [] ∅
  ∧ listener 1 (msg_undo "studio" "constructor") unused cleared
    = threw cleared [].
Proof. repeat split; by vm_compute. Qed.

(** C7 at a room name the registry inherits: bob's connection joins
    "__proto__" and sends points for a stroke that does not exist.  The join
    creates no room and answers with a frame that carries no strokes; the
    [add_points] turn throws on [state.strokes.find]. *)
Theorem C7_add_points_in_an_inherited_room_throws :
  listener 1 (msg_join_room "__proto__" "bob") unused fresh_server
  = returned server_in_proto [(1, None)]
  ∧ rooms server_in_proto !! "__proto__" = None
  ∧ listener 1 (msg_add_points "__proto__" "A" [pt 8; pt 9]) unused server_in_proto
    = threw server_in_proto [].
Proof. repeat split; by vm_compute. Qed.

(** C8 at a user id the stacks inherit: connection 0 joins "studio" as
    "toString" and begins a stroke.  The join returns.  The [begin_stroke]
    turn throws between the two pushes: the stroke is in the room and is not
    tombstoned, and its id is on no stack. *)
Theorem C8_a_live_stroke_on_no_stack :
  let joined :=
    (on_message 0 (msg_join_room "studio" "toString") unused fresh_server).1 in
  let s := mkStroke "S1" "toString" "#112233" 2%Z pen [] None in
  listener 0 (msg_join_room "studio" "toString") unused fresh_server
  = returned joined [(0, Some (ev_room_state empty_room))]
  ∧ match listener 0 (msg_begin_stroke "studio" "#112233" 2%Z pen) "S1" joined with
    | threw sv' _ =>
        strokes (room_of sv' "studio") = [s]
        ∧ truthy (stroke_removed s) = false
        ∧ userStacks (room_of sv' "studio") = ∅
        ∧ occurrences "S1" (stack_of (room_of sv' "studio") "toString") = 0
    | _ => False
    end.
Proof. repeat split; by vm_compute. Qed.

(** C9 at a user id the stacks inherit: the [begin_stroke] of connection 0,
    open and in "studio" under the user id "toString", throws before the
    broadcast and the direct send.  Not one frame leaves the authority: the
    initiator gets the event zero times, and bob's open connection in the
    same room does not get it either. *)
Theorem C9_begin_stroke_under_an_inherited_user_id_sends_nothing :
  let joined :=
    (on_message 0 (msg_join_room "studio" "toString") unused fresh_server).1 in
  ws_readyState (sockets joined 0) = OPEN
  ∧ ws_room (sockets joined 0) = "studio"
  ∧ ws_userId (sockets joined 0) = "toString"
  ∧ match listener 0 (msg_begin_stroke "studio" "#112233" 2%Z pen) "S1" joined with
    | threw _ out => out = []
    | _ => False
    end.
Proof. repeat split; by vm_compute. Qed.
